(** * dsym_to_index_ranges: DWARF text dumps to a table of named address ranges

    Shallow embedding of
    [PaymentLibrary-iOS/helperScripts/deofuscation/dsym_to_index_ranges.py].

    The script reads two textual dumps line by line, scrapes them with
    regular expressions, resolves a name for every subprogram-like debug
    entry and prints the sorted list of (start, end, name) ranges.

    Modelling choices, all taken from the script:
    - Python [int] is unbounded and every parsed number is non-negative: [N].
    - a debug entry is a [dict] with optional keys: a record of [option]s;
      ['k' in d] is [is_Some], [d.get('k')] is the field itself.
    - [ranges_map], [dies_by_off] and [name_map] are dicts that are only
      looked up: [gmap].
    - the [seen] set of [resolve_name] is one mutable set shared by all the
      recursive calls of a top-level call: it is threaded through as state.
    - [int] raises [ValueError] on a malformed literal: the two builders
      live in [option], [None] standing for the exception.
    - the recursion of [resolve_name] is bounded by the number of indexed
      entries, which is proved to be enough; the recursion limit of the
      interpreter is not modelled.
    - the dumps are modelled as ASCII text, one [string] per line as the file
      iterator yields them (with the trailing newline, when there is one). *)

From Stdlib Require Import NArith Ascii String List Lia Permutation Sorted.
From stdpp Require Import gmap strings list fin_maps.

Local Open Scope N_scope.

(** ** Python values *)

(** Truthiness of a value that is [None] or a [str]. *)
Definition truthy (v : option string) : bool :=
  match v with
  | Some (String _ _) => true
  | _ => false
  end.

(** [a or b] on such values. *)
Definition py_or (a b : option string) : option string :=
  if truthy a then a else b.

(** ** Character classes of the [re] module, on ASCII *)

Definition code (c : ascii) : N := N_of_ascii c.

Definition in_range (lo hi : N) (c : ascii) : bool :=
  (lo <=? code c) && (code c <=? hi).

Definition is_char (a c : ascii) : bool := code a =? code c.

(** [[0-9]] *)
Definition is_digit (c : ascii) : bool := in_range 48 57 c.

(** [[0-9a-fA-F]] *)
Definition is_hex (c : ascii) : bool :=
  is_digit c || in_range 97 102 c || in_range 65 70 c.

(** [[0-9A-Fa-fx]] *)
Definition is_hexx (c : ascii) : bool :=
  is_digit c || in_range 65 70 c || in_range 97 102 c || is_char "x" c.

(** [\s]: tab, newline, vertical tab, form feed, carriage return, the four
    separators 0x1c..0x1f and the space. *)
Definition is_space (c : ascii) : bool :=
  in_range 9 13 c || in_range 28 31 c || is_char " " c.

(** [\w] *)
Definition is_word (c : ascii) : bool :=
  in_range 97 122 c || in_range 65 90 c || is_digit c || is_char "_" c.

(** [.] without DOTALL: anything but a newline. *)
Definition is_dot (c : ascii) : bool := negb (code c =? 10).

(** ** A backtracking matcher for the fragment of [re] the script uses

    Repetition only ever applies to a character class in the script's
    patterns, so [Rep] takes a class.  Alternatives are tried in the order
    of the [re] module: left branch first, a greedy repetition from the
    longest run down, a lazy one from the shortest up. *)

Inductive re : Type :=
| Eps
| Bol                                              (* ^ *)
| WordB                                            (* \b *)
| Cls (p : ascii → bool)                           (* one character of a class *)
| Seq (r1 r2 : re)
| Alt (r1 r2 : re)                                 (* r1|r2 *)
| Opt (r : re)                                     (* (?:r)? *)
| Rep (greedy : bool) (lo : nat) (p : ascii → bool) (* p{lo,} and p{lo,}? *)
| Grp (i : nat) (r : re).                          (* capturing group i *)

(** Captured groups, most recent binding first. *)
Definition captures := list (nat * string).

Fixpoint group (i : nat) (caps : captures) : option string :=
  match caps with
  | [] => None
  | (j, s) :: caps' => if Nat.eqb i j then Some s else group i caps'
  end.

(** Length of the longest prefix of [s] made of characters of [p]. *)
Fixpoint run (p : ascii → bool) (s : string) : nat :=
  match s with
  | String c s' => if p c then S (run p s') else O
  | EmptyString => O
  end.

Fixpoint str_take (n : nat) (s : string) : string :=
  match n, s with
  | S n', String c s' => String c (str_take n' s')
  | _, _ => EmptyString
  end.

Fixpoint str_drop (n : nat) (s : string) : string :=
  match n, s with
  | S n', String _ s' => str_drop n' s'
  | _, _ => s
  end.

(** The character before the position reached after [n] more characters. *)
Fixpoint prev_after (n : nat) (prev : option ascii) (s : string) : option ascii :=
  match n, s with
  | S n', String c s' => prev_after n' (Some c) s'
  | _, _ => prev
  end.

Definition str_head (s : string) : option ascii :=
  match s with
  | String c _ => Some c
  | EmptyString => None
  end.

Definition word_at (c : option ascii) : bool :=
  match c with
  | Some c => is_word c
  | None => false
  end.

Fixpoint first_some {A B : Type} (f : A → option B) (l : list A) : option B :=
  match l with
  | [] => None
  | x :: l' =>
      match f x with
      | Some r => Some r
      | None => first_some f l'
      end
  end.

(** The repetition counts to try, in order, for a run of [n] characters. *)
Definition rep_counts (greedy : bool) (lo n : nat) : list nat :=
  let up := seq lo (S n - lo) in
  if greedy then rev up else up.

Definition cont := option ascii → string → captures → option captures.

(** [exec r prev s caps k]: match [r] at the front of [s] ([prev] is the
    character just before), then hand the rest to [k]; the first overall
    success wins. *)
Fixpoint exec (r : re) (prev : option ascii) (s : string) (caps : captures)
    (k : cont) : option captures :=
  match r with
  | Eps => k prev s caps
  | Bol =>
      match prev with
      | None => k prev s caps
      | Some _ => None
      end
  | WordB =>
      if xorb (word_at prev) (word_at (str_head s)) then k prev s caps else None
  | Cls p =>
      match s with
      | String c s' => if p c then k (Some c) s' caps else None
      | EmptyString => None
      end
  | Seq r1 r2 =>
      exec r1 prev s caps (λ prev' s' caps', exec r2 prev' s' caps' k)
  | Alt r1 r2 =>
      match exec r1 prev s caps k with
      | Some c => Some c
      | None => exec r2 prev s caps k
      end
  | Opt r1 =>
      match exec r1 prev s caps k with
      | Some c => Some c
      | None => k prev s caps
      end
  | Rep greedy lo p =>
      first_some (λ j, k (prev_after j prev s) (str_drop j s) caps)
                 (rep_counts greedy lo (run p s))
  | Grp i r1 =>
      exec r1 prev s caps
        (λ prev' s' caps',
           k prev' s' ((i, str_take (String.length s - String.length s') s) :: caps'))
  end.

Definition accept : cont := λ _ _ caps, Some caps.

(** [pattern.match(s)]: anchored at the start of [s]. *)
Definition re_match (r : re) (s : string) : option captures :=
  exec r None s [] accept.

Fixpoint search_from (r : re) (prev : option ascii) (s : string) : option captures :=
  match exec r prev s [] accept with
  | Some c => Some c
  | None =>
      match s with
      | String c s' => search_from r (Some c) s'
      | EmptyString => None
      end
  end.

(** [pattern.search(s)]: the leftmost position where the pattern matches. *)
Definition re_search (r : re) (s : string) : option captures :=
  search_from r None s.

(** A literal string. *)
Fixpoint lit (s : string) : re :=
  match s with
  | String c s' => Seq (Cls (is_char c)) (lit s')
  | EmptyString => Eps
  end.

Fixpoint seqs (rs : list re) : re :=
  match rs with
  | [] => Eps
  | [r] => r
  | r :: rs' => Seq r (seqs rs')
  end.

Definition star (p : ascii → bool) : re := Rep true 0 p.
Definition plus (p : ascii → bool) : re := Rep true 1 p.

(** ** The script's patterns

    Each pattern is written out piece by piece in the order of the source
    text: [star c] is [c*], [plus c] is [c+], [Grp i r] is the i-th
    parenthesis. *)

Definition dquote : ascii := ascii_of_N 34.

(** [rx_dr]: start of line, spaces, group 1 = four or more hex digits,
    one or more spaces, group 2 = one or more of [0-9A-Fa-fx], one or more
    spaces, group 3 = one or more of [0-9A-Fa-fx]. *)
Definition rx_dr : re :=
  seqs [Bol; star is_space; Grp 1 (Rep true 4 is_hex);
        plus is_space; Grp 2 (plus is_hexx);
        plus is_space; Grp 3 (plus is_hexx)].

(** [rx_any_tag]: a word boundary, group 1 = [DW_TAG_] or [TAG_],
    group 2 = one or more word characters. *)
Definition rx_any_tag : re :=
  seqs [WordB; Grp 1 (Alt (lit "DW_TAG_") (lit "TAG_")); Grp 2 (plus is_word)].

(** The shape of [rx_low] and [rx_hia]: the key, spaces, an opening
    parenthesis, spaces, optionally [addr:] and spaces, [0x],
    group 1 = one or more hex digits, spaces, a closing parenthesis. *)
Definition rx_addr_attr (key : string) : re :=
  seqs [lit key; star is_space; lit "("; star is_space;
        Opt (Seq (lit "addr:") (star is_space));
        lit "0x"; Grp 1 (plus is_hex); star is_space; lit ")"].

(** The shape of [rx_ranges], [rx_abs] and [rx_spec]: as above without the
    optional [addr:]. *)
Definition rx_ref_attr (key : string) : re :=
  seqs [lit key; star is_space; lit "("; star is_space;
        lit "0x"; Grp 1 (plus is_hex); star is_space; lit ")"].

(** The shape of [rx_name] and [rx_link]: the key, spaces, an opening
    parenthesis, a double quote, group 1 = one or more characters taken
    lazily, a double quote, a closing parenthesis. *)
Definition rx_str_attr (key : string) : re :=
  seqs [lit key; star is_space; lit "("; Cls (is_char dquote);
        Grp 1 (Rep false 1 is_dot); Cls (is_char dquote); lit ")"].

Definition rx_low : re := rx_addr_attr "DW_AT_low_pc".
Definition rx_hia : re := rx_addr_attr "DW_AT_high_pc".

(** [rx_hiud]: [DW_AT_high_pc], spaces, an opening parenthesis, spaces,
    [udata:], spaces, group 1 = one or more decimal digits, spaces, a
    closing parenthesis. *)
Definition rx_hiud : re :=
  seqs [lit "DW_AT_high_pc"; star is_space; lit "("; star is_space;
        lit "udata:"; star is_space; Grp 1 (plus is_digit);
        star is_space; lit ")"].

Definition rx_ranges : re := rx_ref_attr "DW_AT_ranges".
Definition rx_name : re := rx_str_attr "DW_AT_name".
Definition rx_link : re := rx_str_attr "DW_AT_linkage_name".
Definition rx_abs : re := rx_ref_attr "DW_AT_abstract_origin".
Definition rx_spec : re := rx_ref_attr "DW_AT_specification".

(** [rx_die_off]: start of line, spaces, [0x], group 1 = one or more hex
    digits, a colon. *)
Definition rx_die_off : re :=
  seqs [Bol; star is_space; lit "0x"; Grp 1 (plus is_hex); lit ":"].

(** [SWIFT_MANGLED_RX]: start of line, then [$s] after an optional
    underscore, or [_T], or [$S]. *)
Definition SWIFT_MANGLED_RX : re :=
  seqs [Bol; Grp 1 (Alt (Seq (Opt (lit "_")) (lit "$s"))
                        (Alt (lit "_T") (lit "$S")))].

(** ** String and number helpers of the Python runtime *)

Definition nl : string := String (ascii_of_N 10) EmptyString.

(** [str.lower()] *)
Definition lower_char (c : ascii) : ascii :=
  if in_range 65 90 c then ascii_of_N (code c + 32) else c.

Fixpoint lower (s : string) : string :=
  match s with
  | String c s' => String (lower_char c) (lower s')
  | EmptyString => EmptyString
  end.

(** [s.startswith(p)] *)
Definition startswith (p s : string) : bool := String.prefix p s.

(** [s.rstrip(chars)] for the characters of a class. *)
Fixpoint rstrip (p : ascii → bool) (s : string) : string :=
  match s with
  | EmptyString => EmptyString
  | String c s' =>
      match rstrip p s' with
      | EmptyString => if p c then EmptyString else String c EmptyString
      | r => String c r
      end
  end.

Definition lstrip (p : ascii → bool) (s : string) : string :=
  str_drop (run p s) s.

(** [raw.rstrip(chars)] with the newline as only character. *)
Definition chomp (raw : string) : string := rstrip (is_char (ascii_of_N 10)) raw.

(** [s.strip()] *)
Definition strip (s : string) : string := rstrip is_space (lstrip is_space s).

Definition hex_digit (c : ascii) : option N :=
  if is_digit c then Some (code c - 48)
  else if in_range 97 102 c then Some (code c - 87)
  else if in_range 65 70 c then Some (code c - 55)
  else None.

Definition dec_digit (c : ascii) : option N :=
  if is_digit c then Some (code c - 48) else None.

Fixpoint digits (digit : ascii → option N) (base acc : N) (s : string) : option N :=
  match s with
  | EmptyString => Some acc
  | String c s' =>
      match digit c with
      | Some v => digits digit base (base * acc + v) s'
      | None => None
      end
  end.

Definition number (digit : ascii → option N) (base : N) (s : string) : option N :=
  match s with
  | EmptyString => None
  | _ => digits digit base 0 s
  end.

(** [int(s, 16)] on a string without sign, blanks or underscores (the
    patterns capture none): an optional [0x] prefix, then one or more hex
    digits; [None] is the [ValueError]. *)
Definition py_int16 (s : string) : option N :=
  number hex_digit 16
    (if startswith "0x" s || startswith "0X" s then str_drop 2 s else s).

(** [int(s)] on such a string: one or more decimal digits. *)
Definition py_int10 (s : string) : option N := number dec_digit 10 s.

(** [m.group(i)] for a group that took part in the match. *)
Definition grp (i : nat) (m : captures) : string := default EmptyString (group i m).

(** ** Range table builder (the loop over [args.dr]) *)

(** [a = m.group(i).lower(); if not a.startswith('0x'): a = '0x' + a] *)
Definition with_0x (tok : string) : string :=
  let a := lower tok in
  if startswith "0x" a then a else "0x" +:+ a.

(** One iteration of the loop: the state is [(ranges_map, pairs)]. *)
Definition dr_line (st : gmap N (list (N * N)) * nat) (raw : string)
    : option (gmap N (list (N * N)) * nat) :=
  match re_match rx_dr raw with
  | None => Some st
  | Some m =>
      off ← py_int16 (grp 1 m);
      s ← py_int16 (with_0x (grp 2 m));
      e ← py_int16 (with_0x (grp 3 m));
      if (s =? 0) && (e =? 0) then Some st
      else Some (<[off := default [] (st.1 !! off) ++ [(s, e)]]> st.1, S st.2)
  end.

Fixpoint dr_lines (st : gmap N (list (N * N)) * nat) (lines : list string)
    : option (gmap N (list (N * N)) * nat) :=
  match lines with
  | [] => Some st
  | raw :: rest => st' ← dr_line st raw; dr_lines st' rest
  end.

Definition build_ranges (lines : list string) : option (gmap N (list (N * N)) * nat) :=
  dr_lines (∅, O) lines.

(** ** Debug entries *)

Module Die.
Record t : Type := mk {
  tag : string;
  off : option N;
  low : option N;
  high : option N;
  ranges_off : option N;
  name : option string;
  abs : option N;
  spec : option N
}.

Definition new (tg : string) : t := mk tg None None None None None None None.

Definition set_off (v : N) (d : t) : t :=
  mk (tag d) (Some v) (low d) (high d) (ranges_off d) (name d) (abs d) (spec d).
Definition set_low (v : N) (d : t) : t :=
  mk (tag d) (off d) (Some v) (high d) (ranges_off d) (name d) (abs d) (spec d).
Definition set_high (v : N) (d : t) : t :=
  mk (tag d) (off d) (low d) (Some v) (ranges_off d) (name d) (abs d) (spec d).
Definition set_ranges_off (v : N) (d : t) : t :=
  mk (tag d) (off d) (low d) (high d) (Some v) (name d) (abs d) (spec d).
Definition set_name (v : string) (d : t) : t :=
  mk (tag d) (off d) (low d) (high d) (ranges_off d) (Some v) (abs d) (spec d).
Definition set_abs (v : N) (d : t) : t :=
  mk (tag d) (off d) (low d) (high d) (ranges_off d) (name d) (Some v) (spec d).
Definition set_spec (v : N) (d : t) : t :=
  mk (tag d) (off d) (low d) (high d) (ranges_off d) (name d) (abs d) (Some v).
End Die.

(** ** Debug entry builder (the loop over [args.di]) *)

(** The attribute tests of one line, for the open entry [cur].  A test
    that fires ends the iteration ([continue]); otherwise the line goes on
    to the next test.  The chain is written from its last test back to its
    first, [attr_line]. *)
Definition from_spec (cur : Die.t) (line : string) : option Die.t :=
  match re_search rx_spec line with
  | Some m => v ← py_int16 (grp 1 m); Some (Die.set_spec v cur)
  | None => Some cur
  end.

Definition from_abs (cur : Die.t) (line : string) : option Die.t :=
  match re_search rx_abs line with
  | Some m => v ← py_int16 (grp 1 m); Some (Die.set_abs v cur)
  | None => from_spec cur line
  end.

Definition from_link (cur : Die.t) (line : string) : option Die.t :=
  match re_search rx_link line, Die.name cur with
  | Some m, None => Some (Die.set_name (grp 1 m) cur)
  | _, _ => from_abs cur line
  end.

Definition from_name (cur : Die.t) (line : string) : option Die.t :=
  match re_search rx_name line with
  | Some m => Some (Die.set_name (grp 1 m) cur)
  | None => from_link cur line
  end.

Definition from_ranges (cur : Die.t) (line : string) : option Die.t :=
  match re_search rx_ranges line with
  | Some m => v ← py_int16 (grp 1 m); Some (Die.set_ranges_off v cur)
  | None => from_name cur line
  end.

Definition from_hiud (cur : Die.t) (line : string) : option Die.t :=
  match re_search rx_hiud line, Die.low cur with
  | Some m, Some lo => v ← py_int10 (grp 1 m); Some (Die.set_high (lo + v) cur)
  | _, _ => from_ranges cur line
  end.

Definition from_hia (cur : Die.t) (line : string) : option Die.t :=
  match re_search rx_hia line, Die.low cur with
  | Some m, Some _ => v ← py_int16 (grp 1 m); Some (Die.set_high v cur)
  | _, _ => from_hiud cur line
  end.

Definition attr_line (cur : Die.t) (line : string) : option Die.t :=
  match re_search rx_low line with
  | Some m => v ← py_int16 (grp 1 m); Some (Die.set_low v cur)
  | None => from_hia cur line
  end.

(** One iteration of the loop: the state is [(dies, cur)]. *)
Definition di_line (st : list Die.t * option Die.t) (raw : string)
    : option (list Die.t * option Die.t) :=
  let line := chomp raw in
  match re_search rx_any_tag line with
  | Some mtag =>
      let dies := match st.2 with Some c => st.1 ++ [c] | None => st.1 end in
      let cur := Die.new ("DW_TAG_" +:+ grp 2 mtag) in
      match re_match rx_die_off line with
      | Some moff => v ← py_int16 (grp 1 moff); Some (dies, Some (Die.set_off v cur))
      | None => Some (dies, Some cur)
      end
  | None =>
      match st.2 with
      | None => Some st
      | Some c => c' ← attr_line c line; Some (st.1, Some c')
      end
  end.

Fixpoint di_lines (st : list Die.t * option Die.t) (lines : list string)
    : option (list Die.t * option Die.t) :=
  match lines with
  | [] => Some st
  | raw :: rest => st' ← di_line st raw; di_lines st' rest
  end.

(** The whole pass, with the entry still open at the end appended. *)
Definition build_dies (lines : list string) : option (list Die.t) :=
  st ← di_lines ([], None) lines;
  Some (match st.2 with Some c => st.1 ++ [c] | None => st.1 end).

(** [dies_by_off = { d['off']: d for d in dies if 'off' in d }]: a later
    entry with the same offset replaces an earlier one. *)
Definition index_dies (dies : list Die.t) : gmap N Die.t :=
  foldl (λ m d, match Die.off d with Some o => <[o := d]> m | None => m end) ∅ dies.

(** ** Output records *)

Module Func.
(** One element of [funcs]: [{'start': .., 'end': .., 'name': ..}]. *)
Record t : Type := mk { start : N; end_ : N; name : string }.
End Func.

Record result : Type := mk_result {
  image : string;
  uuid : string;
  arch : string;
  functions : list Func.t
}.

(** ** Resolver and emitter *)

Section Resolver.
Variable name_map : gmap string string.
Variable dies_by_off : gmap N Die.t.
Variable ranges_map : gmap N (list (N * N)).
(** [_swift_ok] *)
Variable swift_ok : bool.
(** The standard output of [swift-demangle --compact] on a name; [None]
    when running it raises. *)
Variable tool : string → option string.

(** [name_map.get(nm, nm)] *)
Definition mapped (nm : string) : string := default nm (name_map !! nm).

(** The loop [for k in ('abs','spec')] of [resolve_name], over the values
    [d.get(k)], given the function [rec] to call on a referenced entry.
    A call returns its value together with the [seen] set it leaves. *)
Fixpoint refs_loop (rec : Die.t → gset N → option (option string * gset N))
    (ks : list (option N)) (seen : gset N) : option (option string * gset N) :=
  match ks with
  | [] => Some (None, seen)
  | None :: ks' => refs_loop rec ks' seen
  | Some ref :: ks' =>
      if decide (ref ∈ seen) then refs_loop rec ks' seen
      else
        let seen1 := {[ref]} ∪ seen in
        match dies_by_off !! ref with
        | None => refs_loop rec ks' seen1
        | Some d2 =>
            match rec d2 seen1 with
            | None => None
            | Some (nm2, seen2) =>
                if truthy nm2 then Some (mapped <$> nm2, seen2)
                else refs_loop rec ks' seen2
            end
        end
  end.

(** [resolve_name(d, seen)] with a bound on the depth of the recursion;
    [None] when the bound is reached. *)
Fixpoint resolve_name_from (fuel : nat) (d : Die.t) (seen : gset N)
    : option (option string * gset N) :=
  match fuel with
  | O => None
  | S fuel' =>
      if truthy (Die.name d) then Some (mapped <$> Die.name d, seen)
      else refs_loop (resolve_name_from fuel') [Die.abs d; Die.spec d] seen
  end.

(** [resolve_name(d)]: a fresh [seen]; the bound is never reached
    (see [resolve_name_from_total]). *)
Definition resolve_name (d : Die.t) : option string :=
  match resolve_name_from (S (size dies_by_off)) d ∅ with
  | Some (nm, _) => nm
  | None => None
  end.

Definition swift_demangle_one (mangled : string) : string :=
  if negb swift_ok then mangled
  else
    match re_match SWIFT_MANGLED_RX mangled with
    | None => mangled
    | Some _ =>
        match tool mangled with
        | Some out =>
            let s := strip out in
            if truthy (Some s) then s else mangled
        | None => mangled
        end
    end.

Definition maybe_demangle (name : string) : string :=
  if negb (truthy (Some name)) then name
  else swift_demangle_one (mapped name).

Definition is_subprogram_like (d : Die.t) : bool :=
  bool_decide (Die.tag d = "DW_TAG_subprogram")
  || bool_decide (Die.tag d = "DW_TAG_inlined_subroutine").

(** The two assignments to [name] at the top of the loop body. *)
Definition emit_name (d : Die.t) : option string :=
  let name := py_or (resolve_name d) (Die.name d) in
  if truthy name then maybe_demangle <$> name else None.

(** [if name: funcs.append({..}) else: miss_name += 1], on the state
    [(funcs, miss_name)]. *)
Definition push (name : option string) (s e : N) (st : list Func.t * nat)
    : list Func.t * nat :=
  match name with
  | Some nm =>
      if truthy name then (st.1 ++ [Func.mk s e nm], st.2) else (st.1, S st.2)
  | None => (st.1, S st.2)
  end.

(** The first [if] of the loop body: the direct pair. *)
Definition emit_direct (name : option string) (d : Die.t)
    (st : list Func.t * nat) : list Func.t * nat :=
  match Die.low d, Die.high d with
  | Some lo, Some hi => if lo <? hi then push name lo hi st else st
  | _, _ => st
  end.

(** The second [if] of the loop body: the pairs of the range table. *)
Definition emit_ranges (name : option string) (d : Die.t)
    (st : list Func.t * nat) : list Func.t * nat :=
  match Die.ranges_off d with
  | Some roff =>
      match ranges_map !! roff with
      | Some prs =>
          foldl (λ acc se, if se.1 <? se.2 then push name se.1 se.2 acc else acc)
                st prs
      | None => st
      end
  | None => st
  end.

(** One iteration of [for d in dies]. *)
Definition emit_die (st : list Func.t * nat) (d : Die.t) : list Func.t * nat :=
  if negb (is_subprogram_like d) then st
  else
    let name := emit_name d in
    emit_ranges name d (emit_direct name d st).

(** The emission loop from [funcs = []], [miss_name = 0]. *)
Definition emit (dies : list Die.t) : list Func.t * nat :=
  foldl emit_die ([], O) dies.
End Resolver.

(** ** [funcs.sort(key=lambda x: (x['start'], x['end']))]

    [list.sort] is stable; a stable sort has one possible result, computed
    here by insertion: an element goes in front of the first one whose key
    is not smaller. *)

(** Comparison of the key tuples: [(start a, end a) <= (start b, end b)]. *)
Definition key_le (a b : Func.t) : bool :=
  (Func.start a <? Func.start b)
  || ((Func.start a =? Func.start b) && (Func.end_ a <=? Func.end_ b)).

Fixpoint insert_sorted (x : Func.t) (l : list Func.t) : list Func.t :=
  match l with
  | [] => [x]
  | y :: l' => if key_le x y then x :: y :: l' else y :: insert_sorted x l'
  end.

Definition py_sort (l : list Func.t) : list Func.t := foldr insert_sorted [] l.

(** ** The script from the parsed dumps on *)

(** Everything after the two builders: the index, the emission loop, the
    sort and the printed record. *)
Definition report (name_map : gmap string string) (swift_ok : bool)
    (tool : string → option string) (image uuid arch : string)
    (ranges_map : gmap N (list (N * N))) (dies : list Die.t) : result :=
  let funcs := (emit name_map (index_dies dies) ranges_map swift_ok tool dies).1 in
  mk_result image uuid arch (py_sort funcs).

(** The script on the lines of its two input files; [None] when an [int]
    conversion raises. *)
Definition main (name_map : gmap string string) (swift_ok : bool)
    (tool : string → option string) (image uuid arch : string)
    (dr di : list string) : option result :=
  rm ← build_ranges dr;
  dies ← build_dies di;
  Some (report name_map swift_ok tool image uuid arch rm.1 dies).

(** ** Vocabulary of the properties *)

(** *** The matcher *)

(** Every character of [s] is in the class [p]. *)
Fixpoint all_chars (p : ascii → bool) (s : string) : bool :=
  match s with
  | String c s' => p c && all_chars p s'
  | EmptyString => true
  end.

(** What a successful run of [exec] on a pattern amounts to: the pattern
    takes a prefix of [s] and leaves [s'], turning the captures [caps] into
    [caps']. *)
Fixpoint consumes (r : re) (prev : option ascii) (s : string) (caps : captures)
    (prev' : option ascii) (s' : string) (caps' : captures) : Prop :=
  match r with
  | Eps => prev' = prev ∧ s' = s ∧ caps' = caps
  | Bol => prev = None ∧ prev' = prev ∧ s' = s ∧ caps' = caps
  | WordB =>
      xorb (word_at prev) (word_at (str_head s)) = true
      ∧ prev' = prev ∧ s' = s ∧ caps' = caps
  | Cls p => ∃ c, s = String c s' ∧ p c = true ∧ prev' = Some c ∧ caps' = caps
  | Seq r1 r2 =>
      ∃ prev1 s1 caps1,
        consumes r1 prev s caps prev1 s1 caps1
        ∧ consumes r2 prev1 s1 caps1 prev' s' caps'
  | Alt r1 r2 =>
      consumes r1 prev s caps prev' s' caps' ∨ consumes r2 prev s caps prev' s' caps'
  | Opt r1 =>
      consumes r1 prev s caps prev' s' caps' ∨ (prev' = prev ∧ s' = s ∧ caps' = caps)
  | Rep _ lo p =>
      ∃ j, (lo ≤ j ≤ run p s)%nat
           ∧ prev' = prev_after j prev s ∧ s' = str_drop j s ∧ caps' = caps
  | Grp i r1 =>
      ∃ caps1,
        consumes r1 prev s caps prev' s' caps1
        ∧ caps' = (i, str_take (String.length s - String.length s') s) :: caps1
  end.

(** The captures of a match hold a single group, made of one or more
    characters of a class. *)
Definition one_group (p : ascii → bool) (m : captures) : Prop :=
  ∃ g, m = [(1%nat, g)] ∧ all_chars p g = true ∧ g ≠ EmptyString.

(** *** The range table *)

(** The (offset, start, end) a line of the ranges dump parses to, when it
    matches [rx_dr] and the three conversions succeed. *)
Definition dr_triple (raw : string) : option (N * N * N) :=
  m ← re_match rx_dr raw;
  off ← py_int16 (grp 1 m);
  s ← py_int16 (with_0x (grp 2 m));
  e ← py_int16 (with_0x (grp 3 m));
  Some (off, s, e).

(** A line that matches [rx_dr] and on which a conversion raises. *)
Definition dr_raises (raw : string) : bool :=
  match re_match rx_dr raw, dr_triple raw with
  | Some _, None => true
  | _, _ => false
  end.

(** The triples of offset [off] other than the (0, 0) terminator. *)
Definition kept (off : N) (t : N * N * N) : bool :=
  (t.1.1 =? off) && negb ((t.1.2 =? 0) && (t.2 =? 0)).

(** The pairs the dump gives for an offset, in encounter order. *)
Definition pairs_for (off : N) (lines : list string) : list (N * N) :=
  map (λ t, (t.1.2, t.2)) (filter (λ t, kept off t = true) (omap dr_triple lines)).

(** The list of an offset after more pairs were appended to it: the key
    stays absent while nothing was appended. *)
Definition appended (old : option (list (N * N))) (new : list (N * N))
    : option (list (N * N)) :=
  match old, new with
  | None, [] => None
  | _, _ => Some (default [] old ++ new)
  end.

(** *** Debug entries *)

(** The address extent of an entry is left as it was. *)
Definition keeps_extent (cur cur' : Die.t) : Prop :=
  Die.low cur' = Die.low cur ∧ Die.high cur' = Die.high cur.

(** An entry has a [high] only if it has a [low]. *)
Definition extent_ok (d : Die.t) : Prop :=
  is_Some (Die.high d) → is_Some (Die.low d).

(** *** Name resolution *)

(** The entries of the index not visited yet: each nested call of
    [resolve_name] removes one, which bounds the depth of the recursion. *)
Definition unvisited (dies_by_off : gmap N Die.t) (seen : gset N) : nat :=
  size (dom dies_by_off ∖ seen).

(** A set of entries none of which has a usable name and whose references
    stay inside the set: a reference cycle through entries without a name
    is one. *)
Definition nameless_closed (dies_by_off : gmap N Die.t) (P : Die.t → Prop) : Prop :=
  ∀ d, P d →
    truthy (Die.name d) = false
    ∧ ∀ ref d2, (Die.abs d = Some ref ∨ Die.spec d = Some ref) →
                dies_by_off !! ref = Some d2 → P d2.

(** *** Emission *)

(** The pairs an entry can emit: its direct pair when [high > low], then
    the pairs of its range list with [e > s], in table order. *)
Definition direct_pairs (d : Die.t) : list (N * N) :=
  match Die.low d, Die.high d with
  | Some lo, Some hi => if lo <? hi then [(lo, hi)] else []
  | _, _ => []
  end.

Definition table_pairs (ranges_map : gmap N (list (N * N))) (d : Die.t) : list (N * N) :=
  match Die.ranges_off d with
  | Some roff => filter (λ se, se.1 < se.2) (default [] (ranges_map !! roff))
  | None => []
  end.

Definition emittable (ranges_map : gmap N (list (N * N))) (d : Die.t) : list (N * N) :=
  direct_pairs d ++ table_pairs ranges_map d.

(** The ranges of a list of pairs, under a given name. *)
Definition named (nm : string) (prs : list (N * N)) : list Func.t :=
  map (λ se, Func.mk se.1 se.2 nm) prs.

(** What a list of emittable pairs adds to [(funcs, miss_name)] under the
    name of the loop. *)
Definition pushed (name : option string) (prs : list (N * N)) (st : list Func.t * nat)
    : list Func.t * nat :=
  match name with
  | Some nm =>
      if truthy name then (st.1 ++ named nm prs, st.2)
      else (st.1, (st.2 + length prs)%nat)
  | None => (st.1, (st.2 + length prs)%nat)
  end.

(** The ranges one entry appends to [funcs], and the amount it adds to
    [miss_name]. *)
Definition contribution name_map dies_by_off ranges_map swift_ok tool (d : Die.t)
    : list Func.t :=
  (emit_die name_map dies_by_off ranges_map swift_ok tool ([], O) d).1.

Definition missed name_map dies_by_off ranges_map swift_ok tool (d : Die.t) : nat :=
  (emit_die name_map dies_by_off ranges_map swift_ok tool ([], O) d).2.

(** *** The sort *)

(** The order of the key tuples [(start, end)]. *)
Definition key_order (a b : Func.t) : Prop :=
  Func.start a < Func.start b
  ∨ (Func.start a = Func.start b ∧ Func.end_ a ≤ Func.end_ b).

(** Equality of the key tuples. *)
Definition same_key (a b : Func.t) : bool :=
  (Func.start a =? Func.start b) && (Func.end_ a =? Func.end_ b).

(** ** Sample inputs *)

(** No demangler: running it raises. *)
Definition no_tool : string → option string := λ _, None.

Definition dquoted (s : string) : string :=
  String dquote s +:+ String dquote EmptyString.

(** The two dumps of the end-to-end example: a terminator and a pair
    under offset 0x1000; one subprogram named [foo] with that range list. *)
Definition sample_dr : list string :=
  ["001000  0x0  0x0" +:+ nl; "001000  0x100  0x200" +:+ nl].

Definition sample_di : list string :=
  ["0x00000010:   DW_TAG_subprogram" +:+ nl;
   "                DW_AT_name  (" +:+ dquoted "foo" +:+ ")" +:+ nl;
   "                DW_AT_ranges  (0x00001000)" +:+ nl].

Definition sample_die (name : option string) (lo hi : option N) (roff abs spec : option N)
    : Die.t :=
  Die.mk "DW_TAG_subprogram" (Some 16) lo hi roff name abs spec.

(** An entry whose direct pair is also the only pair of its range list. *)
Definition twice_die : Die.t :=
  sample_die (Some "f") (Some 1) (Some 2) (Some 0) None None.

Definition twice_ranges : gmap N (list (N * N)) := {[ 0 := [(1, 2)] ]}.

(** An entry with a direct pair and a range list of two pairs. *)
Definition three_die : Die.t :=
  sample_die (Some "f") (Some 16) (Some 32) (Some 4096) None None.

Definition three_ranges : gmap N (list (N * N)) := {[ 4096 := [(64, 80); (96, 128)] ]}.

(** An entry with a direct pair and neither a name nor a reference. *)
Definition anonymous_die : Die.t :=
  sample_die None (Some 16) (Some 32) None None None.

(** The rename maps [{"obf": "Original"}] and [{"a": "b", "b": "c"}]. *)
Definition rename_obf : gmap string string := {[ "obf" := "Original" ]}.
Definition rename_chain : gmap string string := {[ "a" := "b"; "b" := "c" ]}.

(** An entry named [obf], and one named through its abstract origin at
    offset 16. *)
Definition obf_die : Die.t :=
  sample_die (Some "obf") (Some 16) (Some 32) None None None.

Definition inlined_obf_die : Die.t :=
  Die.mk "DW_TAG_inlined_subroutine" (Some 48) (Some 64) (Some 80) None None (Some 16) None.

Definition a_die : Die.t :=
  sample_die (Some "a") (Some 16) (Some 32) None None None.

(** Two entries without a name on a reference cycle: the abstract origin
    of the first is the second, whose specification is the first. *)
Definition cycle_a : Die.t :=
  Die.mk "DW_TAG_subprogram" (Some 16) None None None None (Some 32) None.

Definition cycle_b : Die.t :=
  Die.mk "DW_TAG_subprogram" (Some 32) None None None None None (Some 16).

Definition cycle_index : gmap N Die.t := index_dies [cycle_a; cycle_b].

(** An open entry with a low address, and a line giving its high address
    as a delta. *)
Definition low_die : Die.t :=
  Die.set_low 4294983520 (Die.set_off 16 (Die.new "DW_TAG_subprogram")).

Definition delta_line : string := "    DW_AT_high_pc  (udata: 32)" +:+ nl.

(** *** Further vocabulary *)

(** The entries of a state of the debug entry builder: the closed ones,
    then the open one. *)
Definition entries (st : list Die.t * option Die.t) : list Die.t :=
  st.1 ++ match st.2 with Some c => [c] | None => [] end.

(** The tag and the offset of an entry. *)
Definition head_of (d : Die.t) : string * option N := (Die.tag d, Die.off d).

(** The tag and the offset a line gives to the entry it opens, when it is
    a tag line. *)
Definition header (raw : string) : option (string * option N) :=
  mtag ← re_search rx_any_tag (chomp raw);
  Some ("DW_TAG_" +:+ grp 2 mtag,
        moff ← re_match rx_die_off (chomp raw); py_int16 (grp 1 moff)).

(** An open entry named [foo], and a line giving a linkage name. *)
Definition foo_die : Die.t :=
  Die.set_name "foo" (Die.set_off 16 (Die.new "DW_TAG_subprogram")).

Definition linkage_line : string :=
  "                DW_AT_linkage_name  (" +:+ dquoted "_Z3foov" +:+ ")".

(** [reaches idx d d']: [d'] is [d] or an entry found from [d] by following
    abstract origins and specifications through the index. *)
Inductive reaches (dies_by_off : gmap N Die.t) : Die.t → Die.t → Prop :=
| reaches_here d : reaches dies_by_off d d
| reaches_step d ref d2 d' :
    Die.abs d = Some ref ∨ Die.spec d = Some ref →
    dies_by_off !! ref = Some d2 →
    reaches dies_by_off d2 d' →
    reaches dies_by_off d d'.

(** No replacement of the rename map is the empty string. *)
Definition no_empty_rename (name_map : gmap string string) : Prop :=
  ∀ nm v, name_map !! nm = Some v → v ≠ EmptyString.

(** An offset whose entry, if it has one, has no usable name and only
    references inside [seen]. *)
Definition settled (dies_by_off : gmap N Die.t) (seen : gset N) (o : N) : Prop :=
  ∀ d2, dies_by_off !! o = Some d2 →
    truthy (Die.name d2) = false
    ∧ ∀ ref, Die.abs d2 = Some ref ∨ Die.spec d2 = Some ref → ref ∈ seen.

(** An entry without a name whose abstract origin is missing from the
    index and whose specification is the entry named [obf]. *)
Definition spec_only_die : Die.t :=
  Die.mk "DW_TAG_subprogram" (Some 48) (Some 64) (Some 80) None None (Some 999) (Some 16).

(** Where a name returned by [resolve_name] comes from: a direct name of
    a reachable entry, renamed one or more times. *)
Definition renamed_from (name_map : gmap string string) (dies_by_off : gmap N Die.t)
    (d : Die.t) (nm : string) : Prop :=
  ∃ d' nm0 k,
    reaches dies_by_off d d' ∧ Die.name d' = Some nm0 ∧ nm0 ≠ EmptyString
    ∧ nm = Nat.iter (S k) (mapped name_map) nm0.

(** What a call of [resolve_name] that finds nothing leaves behind: the
    entry has no usable name, its references are in the final [seen], and
    every offset added to [seen] is settled. *)
Definition exhausted (dies_by_off : gmap N Die.t) (d : Die.t) (seen seen' : gset N)
    : Prop :=
  truthy (Die.name d) = false
  ∧ (∀ ref, Die.abs d = Some ref ∨ Die.spec d = Some ref → ref ∈ seen')
  ∧ seen ⊆ seen'
  ∧ ∀ o, o ∈ seen' → o ∉ seen → settled dies_by_off seen' o.

(** The number of pairs a subprogram-like entry can emit; none for any
    other entry. *)
Definition candidates (ranges_map : gmap N (list (N * N))) (d : Die.t) : nat :=
  if is_subprogram_like d then length (emittable ranges_map d) else O.

(** The name starts with one of the prefixes of a Swift symbol. *)
Definition swift_prefixed (s : string) : bool :=
  startswith "$s" s || startswith "_$s" s || startswith "_T" s || startswith "$S" s.

(** A demangler that answers with blanks only. *)
Definition blank_tool : string → option string := λ _, Some ("  " +:+ nl).

(** * Properties *)

(** ** The sort *)


Lemma key_le_true a b : key_le a b = true → key_order a b.
Proof.
  unfold key_le, key_order. intros H.
  apply orb_true_iff in H as [H | H].
  - left. by apply N.ltb_lt.
  - apply andb_true_iff in H as [H1 H2]. right.
    split; [by apply N.eqb_eq | by apply N.leb_le].
Qed.

Lemma key_le_false a b : key_le a b = false → key_order b a.
Proof.
  unfold key_le, key_order. intros H.
  apply orb_false_iff in H as [H1 H2].
  apply N.ltb_ge in H1.
  apply andb_false_iff in H2 as [H2 | H2].
  - apply N.eqb_neq in H2. left. lia.
  - apply N.leb_gt in H2. destruct (decide (Func.start a = Func.start b)); [right | left]; lia.
Qed.

Lemma key_order_trans a b c : key_order a b → key_order b c → key_order a c.
Proof. unfold key_order. lia. Qed.

Lemma insert_sorted_perm x l : insert_sorted x l ≡ₚ x :: l.
Proof.
  induction l as [| y l IH]; simpl; [done |].
  destruct (key_le x y); [done |].
  rewrite IH. apply Permutation_swap.
Qed.

Lemma py_sort_perm l : py_sort l ≡ₚ l.
Proof.
  induction l as [| x l IH]; simpl; [done |].
  fold (py_sort l). by rewrite insert_sorted_perm, IH.
Qed.

Lemma insert_sorted_sorted x l :
  StronglySorted key_order l → StronglySorted key_order (insert_sorted x l).
Proof.
  induction 1 as [| y l Hs IH Hy]; simpl.
  - repeat constructor.
  - destruct (key_le x y) eqn:Hxy.
    + apply key_le_true in Hxy. constructor; [by constructor |].
      constructor; [done |].
      eapply Forall_impl; [exact Hy |]. intros z Hz. by eapply key_order_trans.
    + apply key_le_false in Hxy. constructor; [done |].
      rewrite insert_sorted_perm. by constructor.
Qed.

Lemma py_sort_sorted l : StronglySorted key_order (py_sort l).
Proof.
  induction l as [| x l IH]; simpl; [constructor |].
  by apply insert_sorted_sorted.
Qed.


(** Stability: the elements with a given key keep their input order. *)
Lemma insert_sorted_stable k x l :
  StronglySorted key_order l →
  filter (λ y, same_key k y = true) (insert_sorted x l)
  = filter (λ y, same_key k y = true) (x :: l).
Proof.
  induction 1 as [| y l Hs IH Hy]; simpl; [done |].
  destruct (key_le x y) eqn:Hxy; [done |].
  rewrite !filter_cons. rewrite filter_cons in IH.
  destruct (decide (same_key k y = true)) as [Hky | Hky];
    destruct (decide (same_key k x = true)) as [Hkx | Hkx];
    rewrite IH; try done.
  (* both have the key k: then key_le x y would hold *)
  exfalso. unfold same_key in Hky, Hkx.
  apply andb_true_iff in Hky as [Hys%N.eqb_eq Hye%N.eqb_eq].
  apply andb_true_iff in Hkx as [Hxs%N.eqb_eq Hxe%N.eqb_eq].
  unfold key_le in Hxy. rewrite <- Hxs, <- Hxe, <- Hys, <- Hye in Hxy.
  by rewrite N.ltb_irrefl, N.eqb_refl, N.leb_refl in Hxy.
Qed.

Lemma py_sort_stable k l :
  filter (λ y, same_key k y = true) (py_sort l)
  = filter (λ y, same_key k y = true) l.
Proof.
  induction l as [| x l IH]; simpl; [done |].
  fold (py_sort l). rewrite insert_sorted_stable by apply py_sort_sorted.
  rewrite !filter_cons. by rewrite IH.
Qed.

(** ** The emission loop *)


Lemma pushed_nil name st : pushed name [] st = st.
Proof.
  destruct st as [fs m]. unfold pushed, named.
  destruct name as [nm |]; [destruct (truthy (Some nm)) |]; simpl;
    by rewrite ?app_nil_r, ?Nat.add_0_r.
Qed.

Lemma pushed_app name prs1 prs2 st :
  pushed name (prs1 ++ prs2) st = pushed name prs2 (pushed name prs1 st).
Proof.
  destruct st as [fs m]. unfold pushed, named.
  destruct name as [nm |]; [destruct (truthy (Some nm)) |]; simpl;
    by rewrite ?map_app, ?length_app, ?app_assoc, ?Nat.add_assoc.
Qed.

Lemma push_pushed name s e st : push name s e st = pushed name [(s, e)] st.
Proof.
  destruct st as [fs m]. unfold push, pushed, named.
  destruct name as [nm |]; [destruct (truthy (Some nm)) |]; simpl;
    by rewrite ?Nat.add_1_r.
Qed.

Section EmitFacts.
Variable name_map : gmap string string.
Variable dies_by_off : gmap N Die.t.
Variable ranges_map : gmap N (list (N * N)).
Variable swift_ok : bool.
Variable tool : string → option string.

Local Abbreviation name_of := (emit_name name_map dies_by_off swift_ok tool).
Local Abbreviation step := (emit_die name_map dies_by_off ranges_map swift_ok tool).
Local Abbreviation loop := (emit name_map dies_by_off ranges_map swift_ok tool).
Local Abbreviation contrib :=
  (contribution name_map dies_by_off ranges_map swift_ok tool).
Local Abbreviation miss := (missed name_map dies_by_off ranges_map swift_ok tool).

Lemma emit_direct_pushed name d st :
  emit_direct name d st = pushed name (direct_pairs d) st.
Proof.
  unfold emit_direct, direct_pairs.
  destruct (Die.low d) as [lo |], (Die.high d) as [hi |];
    rewrite ?pushed_nil; try done.
  destruct (lo <? hi); by rewrite ?pushed_nil, ?push_pushed.
Qed.

Lemma emit_ranges_loop name prs st :
  foldl (λ acc se, if se.1 <? se.2 then push name se.1 se.2 acc else acc) st prs
  = pushed name (filter (λ se, se.1 < se.2) prs) st.
Proof.
  revert st. induction prs as [| [s e] prs IH]; intros st; simpl.
  - by rewrite pushed_nil.
  - rewrite IH, filter_cons. simpl.
    destruct (s <? e) eqn:Hse.
    + apply N.ltb_lt in Hse. rewrite decide_True by done.
      by rewrite push_pushed, <- pushed_app.
    + apply N.ltb_ge in Hse. rewrite decide_False by lia. done.
Qed.

Lemma emit_ranges_pushed name d st :
  emit_ranges ranges_map name d st = pushed name (table_pairs ranges_map d) st.
Proof.
  unfold emit_ranges, table_pairs.
  destruct (Die.ranges_off d) as [roff |]; [| by rewrite pushed_nil].
  destruct (ranges_map !! roff) as [prs |]; simpl.
  - apply emit_ranges_loop.
  - by rewrite pushed_nil.
Qed.

(** One iteration of the loop, in closed form. *)
Lemma emit_die_pushed st d :
  step st d =
    if is_subprogram_like d
    then pushed (name_of d) (emittable ranges_map d) st
    else st.
Proof.
  unfold emit_die, emittable.
  destruct (is_subprogram_like d); simpl; [| done].
  by rewrite emit_ranges_pushed, emit_direct_pushed, pushed_app.
Qed.


Lemma emit_die_split st d :
  step st d = (st.1 ++ contrib d, (st.2 + miss d)%nat).
Proof.
  unfold contribution, missed. rewrite !emit_die_pushed.
  destruct st as [fs m].
  destruct (is_subprogram_like d); simpl; [| by rewrite app_nil_r, Nat.add_0_r].
  unfold pushed, named.
  destruct (name_of d) as [nm |]; [destruct (truthy (Some nm)) |]; simpl;
    by rewrite ?Nat.add_0_r, ?app_nil_r.
Qed.

Lemma emit_loop_split st dies :
  foldl step st dies
  = (st.1 ++ concat (map contrib dies),
     (st.2 + list_sum (map miss dies))%nat).
Proof.
  revert st. induction dies as [| d dies IH]; intros [fs m]; simpl.
  - by rewrite app_nil_r, Nat.add_0_r.
  - rewrite IH, emit_die_split. simpl.
    by rewrite app_assoc, Nat.add_assoc.
Qed.

(** [funcs] after the loop is the concatenation, in entry order, of what
    each entry contributes. *)
Lemma emit_funcs dies : (loop dies).1 = concat (map contrib dies).
Proof. unfold emit. by rewrite emit_loop_split. Qed.

Lemma emit_missed dies : (loop dies).2 = list_sum (map miss dies).
Proof. unfold emit. by rewrite emit_loop_split. Qed.

Lemma contribution_closed d :
  contrib d =
    if is_subprogram_like d
    then match name_of d with
         | Some nm =>
             if truthy (Some nm)
             then map (λ se, Func.mk se.1 se.2 nm) (emittable ranges_map d)
             else []
         | None => []
         end
    else [].
Proof.
  unfold contribution. rewrite emit_die_pushed.
  destruct (is_subprogram_like d); [| done].
  unfold pushed, named.
  destruct (name_of d) as [nm |]; [destruct (truthy (Some nm)) |]; done.
Qed.

Lemma emittable_valid d s e : (s, e) ∈ emittable ranges_map d → s < e.
Proof.
  unfold emittable, direct_pairs, table_pairs. intros H.
  apply elem_of_app in H as [H | H].
  - destruct (Die.low d) as [lo |], (Die.high d) as [hi |];
      try by apply elem_of_nil in H.
    destruct (lo <? hi) eqn:Hlh; [| by apply elem_of_nil in H].
    apply list_elem_of_singleton in H. inversion H; subst. by apply N.ltb_lt.
  - destruct (Die.ranges_off d); [| by apply elem_of_nil in H].
    apply list_elem_of_filter in H as [H _]. done.
Qed.

(** Every range an entry contributes has positive width and a non-empty
    name. *)
Lemma contribution_valid d f :
  f ∈ contrib d → Func.start f < Func.end_ f ∧ Func.name f ≠ EmptyString.
Proof.
  rewrite contribution_closed. intros H.
  destruct (is_subprogram_like d); [| by apply elem_of_nil in H].
  destruct (name_of d) as [nm |]; [| by apply elem_of_nil in H].
  destruct (truthy (Some nm)) eqn:Hnm; [| by apply elem_of_nil in H].
  apply list_elem_of_fmap in H as [[s e] [-> H]]. simpl.
  split; [by eapply emittable_valid |].
  intros ->. done.
Qed.
End EmitFacts.

(** ** Name resolution *)

Section ResolveFacts.
Variable name_map : gmap string string.
Variable dies_by_off : gmap N Die.t.

Local Abbreviation loop_refs := (refs_loop name_map dies_by_off).
Local Abbreviation resolve_from := (resolve_name_from name_map dies_by_off).
Local Abbreviation pending := (unvisited dies_by_off).
Local Abbreviation closed := (nameless_closed dies_by_off).

Lemma resolve_name_from_S fuel d seen :
  resolve_from (S fuel) d seen =
    if truthy (Die.name d) then Some (mapped name_map <$> Die.name d, seen)
    else loop_refs (resolve_from fuel) [Die.abs d; Die.spec d] seen.
Proof. reflexivity. Qed.

Lemma unvisited_mono seen seen' : seen ⊆ seen' → (pending seen' ≤ pending seen)%nat.
Proof. intros Hs. unfold unvisited. apply subseteq_size. set_solver. Qed.

Lemma unvisited_fresh ref d2 seen :
  dies_by_off !! ref = Some d2 → ref ∉ seen →
  (pending ({[ref]} ∪ seen) < pending seen)%nat.
Proof.
  intros Hd2 Hfresh. unfold unvisited. apply subset_size.
  assert (ref ∈ dom dies_by_off) by (apply elem_of_dom; eauto).
  set_solver.
Qed.

Lemma refs_loop_total rec bound :
  (∀ d2 seen1, (pending seen1 < bound)%nat →
     ∃ r seen', rec d2 seen1 = Some (r, seen') ∧ seen1 ⊆ seen') →
  ∀ ks seen, (pending seen ≤ bound)%nat →
    ∃ r seen', loop_refs rec ks seen = Some (r, seen') ∧ seen ⊆ seen'.
Proof.
  intros Hrec ks. induction ks as [| [ref |] ks IH]; intros seen Hb; simpl.
  - by exists None, seen.
  - destruct (decide (ref ∈ seen)) as [Hin | Hfresh]; [by apply IH |].
    destruct (dies_by_off !! ref) as [d2 |] eqn:Hd2.
    + destruct (Hrec d2 ({[ref]} ∪ seen)) as (nm2 & seen2 & -> & Hsub).
      { pose proof (unvisited_fresh _ _ _ Hd2 Hfresh). lia. }
      destruct (truthy nm2).
      * eexists _, seen2. split; [done | set_solver].
      * destruct (IH seen2) as (r & seen' & -> & Hsub').
        { assert (seen ⊆ seen2) as Hs by set_solver.
          pose proof (unvisited_mono _ _ Hs). lia. }
        exists r, seen'. split; [done | set_solver].
    + destruct (IH ({[ref]} ∪ seen)) as (r & seen' & -> & Hsub').
      { assert (seen ⊆ {[ref]} ∪ seen) as Hs by set_solver.
        pose proof (unvisited_mono _ _ Hs). lia. }
      exists r, seen'. split; [done | set_solver].
  - by apply IH.
Qed.

(** With more fuel than unvisited entries a call returns, and [seen] only
    grows. *)
Lemma resolve_name_from_total fuel d seen :
  (pending seen < fuel)%nat →
  ∃ r seen', resolve_from fuel d seen = Some (r, seen') ∧ seen ⊆ seen'.
Proof.
  revert d seen. induction fuel as [| fuel IH]; intros d seen Hb; [lia |].
  rewrite resolve_name_from_S. destruct (truthy (Die.name d)).
  - by eexists _, seen.
  - apply refs_loop_total with (bound := fuel); [| lia].
    intros d2 seen1 Hlt. by apply IH.
Qed.

Lemma unvisited_empty : pending ∅ = size dies_by_off.
Proof.
  unfold unvisited. rewrite <- size_dom.
  f_equal. set_solver.
Qed.

Lemma unvisited_le seen : (pending seen ≤ size dies_by_off)%nat.
Proof.
  rewrite <- unvisited_empty. apply unvisited_mono. set_solver.
Qed.

(** What a top-level call returns is what [resolve_name] yields. *)
Lemma resolve_name_returns d :
  ∃ seen', resolve_from (S (size dies_by_off)) d ∅
           = Some (resolve_name name_map dies_by_off d, seen').
Proof.
  destruct (resolve_name_from_total (S (size dies_by_off)) d ∅)
    as (r & seen' & Hr & _).
  { rewrite unvisited_empty. lia. }
  exists seen'. unfold resolve_name. by rewrite Hr.
Qed.

Lemma refs_loop_nameless (P : Die.t → Prop) rec :
  (∀ d2 seen1 r seen', P d2 → rec d2 seen1 = Some (r, seen') → r = None) →
  ∀ ks seen r seen',
    (∀ ref d2, Some ref ∈ ks → dies_by_off !! ref = Some d2 → P d2) →
    loop_refs rec ks seen = Some (r, seen') → r = None.
Proof.
  intros Hrec ks. induction ks as [| [ref |] ks IH]; intros seen r seen' Hks; simpl.
  - by intros [= <- _].
  - assert (∀ ref' d2, Some ref' ∈ ks → dies_by_off !! ref' = Some d2 → P d2) as Hks'.
    { intros ref' d2 Hin. apply Hks. by apply list_elem_of_further. }
    destruct (decide (ref ∈ seen)); [by apply IH |].
    destruct (dies_by_off !! ref) as [d2 |] eqn:Hd2; [| by apply IH].
    destruct (rec d2 ({[ref]} ∪ seen)) as [[nm2 seen2] |] eqn:Hcall; [| done].
    assert (nm2 = None) as ->.
    { eapply Hrec; [| exact Hcall]. eapply Hks; [apply list_elem_of_here | done]. }
    simpl. by apply IH.
  - apply IH. intros ref d2 Hin. apply Hks. by apply list_elem_of_further.
Qed.

Lemma resolve_name_from_nameless (P : Die.t → Prop) :
  closed P →
  ∀ fuel d seen r seen',
    P d → resolve_from fuel d seen = Some (r, seen') → r = None.
Proof.
  intros HP fuel. induction fuel as [| fuel IH]; intros d seen r seen' Hd; [done |].
  rewrite resolve_name_from_S. destruct (HP d Hd) as [-> Hrefs].
  apply refs_loop_nameless with (P := P); [by eauto |].
  intros ref d2 Hin. apply Hrefs.
  apply elem_of_cons in Hin as [[= <-] | Hin]; [by left |].
  apply list_elem_of_singleton in Hin as [= <-]. by right.
Qed.
End ResolveFacts.

(** ** The matcher *)

Lemma space_not_hex c : is_space c = true → is_hex c = false.
Proof. destruct c as [[] [] [] [] [] [] [] []]; vm_compute; congruence. Qed.

Lemma first_some_none {A B : Type} (f : A → option B) (l : list A) :
  (∀ x, x ∈ l → f x = None) → first_some f l = None.
Proof.
  induction l as [| x l IH]; intros Hall; simpl; [done |].
  rewrite (Hall x) by apply list_elem_of_here.
  apply IH. intros y Hy. apply Hall. by apply list_elem_of_further.
Qed.

Lemma rep_counts_bounds greedy lo n j :
  j ∈ rep_counts greedy lo n → (lo ≤ j ≤ n)%nat.
Proof.
  unfold rep_counts. intros Hj%list_elem_of_In.
  destruct greedy; [apply in_rev in Hj |]; apply in_seq in Hj; lia.
Qed.

(** A repetition fails when the continuation fails after every count the
    run allows. *)
Lemma exec_rep_none greedy lo p prev s caps (k : cont) :
  (∀ j, (lo ≤ j ≤ run p s)%nat → k (prev_after j prev s) (str_drop j s) caps = None) →
  exec (Rep greedy lo p) prev s caps k = None.
Proof.
  intros Hk. simpl. apply first_some_none.
  intros j Hj. apply Hk. by eapply rep_counts_bounds.
Qed.

(** A repetition fails when the run is shorter than its lower bound. *)
Lemma exec_rep_short greedy lo p prev s caps (k : cont) :
  (run p s < lo)%nat → exec (Rep greedy lo p) prev s caps k = None.
Proof. intros Hlt. apply exec_rep_none. intros j Hj. lia. Qed.

Lemma run_app p a b :
  all_chars p a = true → run p (a +:+ b) = (String.length a + run p b)%nat.
Proof.
  induction a as [| c a IH]; simpl; [done |].
  intros [-> Ha]%andb_true_iff. by rewrite IH.
Qed.

Lemma str_drop_app a b : str_drop (String.length a) (a +:+ b) = b.
Proof. induction a as [| c a IH]; simpl; [by destruct b | done]. Qed.

(** Before the end of a run the next character is still in the class. *)
Lemma str_drop_in_run p s j :
  (j < run p s)%nat → ∃ c r, str_drop j s = String c r ∧ p c = true.
Proof.
  revert s. induction j as [| j IH]; intros [| c s] Hlt; simpl in *; try lia;
    destruct (p c) eqn:Hc; try lia.
  - by eauto.
  - apply IH. lia.
Qed.

(** [rx_dr] needs four hex digits right after the leading blanks. *)
Lemma rx_dr_needs_four s :
  (run is_hex (str_drop (run is_space s) s) < 4)%nat → re_match rx_dr s = None.
Proof.
  intros Hshort. unfold re_match, rx_dr, star. cbn [seqs].
  cbn [exec]. fold (exec (Rep true 0 is_space)).
  apply first_some_none. intros j Hj%rep_counts_bounds.
  apply first_some_none. intros i Hi%rep_counts_bounds.
  destruct (decide (j = run is_space s)) as [-> | Hne]; [lia |].
  destruct (str_drop_in_run is_space s j) as (c & r & Hdrop & Hc); [lia |].
  rewrite Hdrop in Hi. simpl in Hi. rewrite (space_not_hex c Hc) in Hi. lia.
Qed.

Lemma first_some_inv {A B : Type} (f : A → option B) (l : list A) r :
  first_some f l = Some r → ∃ x, x ∈ l ∧ f x = Some r.
Proof.
  induction l as [| x l IH]; simpl; [done |].
  destruct (f x) as [r' |] eqn:Hx.
  - intros [= <-]. exists x. split; [apply list_elem_of_here | done].
  - intros (y & Hy & Hfy)%IH. exists y. split; [by apply list_elem_of_further | done].
Qed.

(** A successful match went through the continuation, after the pattern
    consumed a prefix. *)
Lemma exec_consumes r : ∀ prev s caps (k : cont) res,
  exec r prev s caps k = Some res →
  ∃ prev' s' caps', consumes r prev s caps prev' s' caps' ∧ k prev' s' caps' = Some res.
Proof.
  induction r as [| | | p | r1 IH1 r2 IH2 | r1 IH1 r2 IH2 | r1 IH1 | g lo p | i r1 IH1];
    intros prev s caps k res Hrun; cbn [exec] in Hrun; cbn [consumes].
  - by exists prev, s, caps.
  - destruct prev; [done |]. by exists None, s, caps.
  - destruct (xorb _ _) eqn:Hb; [| done]. by exists prev, s, caps.
  - destruct s as [| c s]; [done |]. destruct (p c) eqn:Hc; [| done].
    exists (Some c), s, caps. split; [by exists c | done].
  - apply IH1 in Hrun as (prev1 & s1 & caps1 & H1 & Hrun).
    apply IH2 in Hrun as (prev2 & s2 & caps2 & H2 & Hrun).
    exists prev2, s2, caps2. split; [by exists prev1, s1, caps1 | done].
  - destruct (exec r1 prev s caps k) as [res1 |] eqn:Hleft.
    + injection Hrun as <-.
      apply IH1 in Hleft as (prev' & s' & caps' & H1 & Hk).
      exists prev', s', caps'. split; [by left | done].
    + apply IH2 in Hrun as (prev' & s' & caps' & H2 & Hk).
      exists prev', s', caps'. split; [by right | done].
  - destruct (exec r1 prev s caps k) as [res1 |] eqn:Hleft.
    + injection Hrun as <-.
      apply IH1 in Hleft as (prev' & s' & caps' & H1 & Hk).
      exists prev', s', caps'. split; [by left | done].
    + exists prev, s, caps. split; [by right | done].
  - apply first_some_inv in Hrun as (j & Hj%rep_counts_bounds & Hk).
    exists (prev_after j prev s), (str_drop j s), caps. split; [by exists j | done].
  - apply IH1 in Hrun as (prev' & s' & caps1 & H1 & Hk).
    eexists prev', s', _. split; [by exists caps1 | done].
Qed.

Lemma re_match_consumes r s m :
  re_match r s = Some m → ∃ prev' s', consumes r None s [] prev' s' m.
Proof.
  intros (prev' & s' & caps' & Hc & [= <-])%exec_consumes. by exists prev', s'.
Qed.

Lemma search_from_consumes r : ∀ s prev m,
  search_from r prev s = Some m →
  ∃ prev0 s0 prev' s', consumes r prev0 s0 [] prev' s' m.
Proof.
  induction s as [| c s IH]; intros prev m; simpl;
    destruct (exec r prev _ [] accept) as [res |] eqn:Hrun; try done.
  - intros [= <-]. apply exec_consumes in Hrun as (prev' & s' & caps' & Hc & [= <-]).
    by exists prev, EmptyString, prev', s'.
  - intros [= <-]. apply exec_consumes in Hrun as (prev' & s' & caps' & Hc & [= <-]).
    by exists prev, (String c s), prev', s'.
  - apply IH.
Qed.

Lemma re_search_consumes r s m :
  re_search r s = Some m → ∃ prev0 s0 prev' s', consumes r prev0 s0 [] prev' s' m.
Proof. apply search_from_consumes. Qed.

(** The text a repetition inside a group captures. *)
Lemma str_drop_length j s :
  (j ≤ String.length s)%nat →
  String.length (str_drop j s) = (String.length s - j)%nat.
Proof.
  revert s. induction j as [| j IH]; intros [| c s] Hj; simpl in *; try lia.
  apply IH. lia.
Qed.

Lemma run_le_length p s : (run p s ≤ String.length s)%nat.
Proof. induction s as [| c s IH]; simpl; [lia |]. destruct (p c); lia. Qed.

Lemma str_take_run p s j :
  (j ≤ run p s)%nat →
  all_chars p (str_take j s) = true ∧ String.length (str_take j s) = j.
Proof.
  revert s. induction j as [| j IH]; intros [| c s] Hj; simpl in *; try done; try lia.
  destruct (p c) eqn:Hc; [| lia].
  destruct (IH s) as [Hall Hlen]; [lia |]. by rewrite Hall, Hlen.
Qed.

Lemma captured_run p s j :
  (j ≤ run p s)%nat →
  let g := str_take (String.length s - String.length (str_drop j s)) s in
  all_chars p g = true ∧ String.length g = j.
Proof.
  intros Hj. pose proof (run_le_length p s).
  rewrite str_drop_length by lia.
  replace (String.length s - (String.length s - j))%nat with j by lia.
  by apply str_take_run.
Qed.

(** ** What the patterns capture *)

Ltac break_consumes H :=
  cbn [seqs lit star plus consumes] in H;
  repeat match goal with
         | H' : ∃ _, _ |- _ => destruct H' as [? H']
         | H' : _ ∧ _ |- _ => destruct H' as [? H']
         | H' : _ ∨ _ |- _ => destruct H' as [H' | H']
         end;
  subst.

Ltac captured_group :=
  eexists; split; [reflexivity |];
  match goal with
  | Hj : (?j ≤ run ?p ?s)%nat |- _ =>
      destruct (captured_run p s j) as [Hall Hlen]; [lia |];
      split; [exact Hall |];
      intros Hnil; rewrite Hnil in Hlen; simpl in Hlen; lia
  end.

Lemma consumes_lit key : ∀ prev s caps prev' s' caps',
  consumes (lit key) prev s caps prev' s' caps' → caps' = caps.
Proof.
  induction key as [| c key IH]; intros prev s caps prev' s' caps' Hc.
  - by destruct Hc as (_ & _ & ->).
  - destruct Hc as (prev1 & s1 & caps1 & (c' & _ & _ & _ & ->) & Hkey).
    by eapply IH.
Qed.

Lemma rx_addr_attr_group key line m :
  re_search (rx_addr_attr key) line = Some m → one_group is_hex m.
Proof.
  intros (prev0 & s0 & prev' & s' & Hc)%re_search_consumes.
  destruct Hc as (prev1 & s1 & caps1 & Hkey%consumes_lit & Hc). subst caps1.
  break_consumes Hc; captured_group.
Qed.

Lemma rx_ref_attr_group key line m :
  re_search (rx_ref_attr key) line = Some m → one_group is_hex m.
Proof.
  intros (prev0 & s0 & prev' & s' & Hc)%re_search_consumes.
  destruct Hc as (prev1 & s1 & caps1 & Hkey%consumes_lit & Hc). subst caps1.
  break_consumes Hc; captured_group.
Qed.

Lemma rx_hiud_group line m : re_search rx_hiud line = Some m → one_group is_digit m.
Proof.
  intros (prev0 & s0 & prev' & s' & Hc)%re_search_consumes.
  unfold rx_hiud in Hc. break_consumes Hc; captured_group.
Qed.

Lemma rx_die_off_group line m : re_match rx_die_off line = Some m → one_group is_hex m.
Proof.
  intros (prev' & s' & Hc)%re_match_consumes.
  unfold rx_die_off in Hc. break_consumes Hc; captured_group.
Qed.

(** ** Conversions that cannot raise *)

Lemma hex_digit_total c : is_hex c = true → is_Some (hex_digit c).
Proof.
  unfold is_hex, hex_digit. intros Hc.
  destruct (is_digit c); [by eexists |].
  destruct (in_range 97 102 c); [by eexists |].
  destruct (in_range 65 70 c); [by eexists | done].
Qed.

Lemma dec_digit_total c : is_digit c = true → is_Some (dec_digit c).
Proof. unfold dec_digit. intros ->. by eexists. Qed.

Lemma digits_total (p : ascii → bool) digit base :
  (∀ c, p c = true → is_Some (digit c)) →
  ∀ s acc, all_chars p s = true → is_Some (digits digit base acc s).
Proof.
  intros Hdigit. induction s as [| c s IH]; intros acc Hall; simpl in *.
  - by eexists.
  - apply andb_true_iff in Hall as [Hc Hs].
    destruct (Hdigit c Hc) as [v ->]. by apply IH.
Qed.

Lemma hex_not_x c : is_hex c = true → c ≠ "x"%char ∧ c ≠ "X"%char.
Proof. destruct c as [[] [] [] [] [] [] [] []]; vm_compute; split; congruence. Qed.

(** A string of hex digits has no [0x] prefix for [int] to strip. *)
Lemma startswith_0x_hex g :
  all_chars is_hex g = true → startswith "0x" g = false ∧ startswith "0X" g = false.
Proof.
  unfold startswith.
  destruct g as [| c1 [| c2 g]]; cbn [String.prefix all_chars].
  - by intros _.
  - intros _. split; by destruct (ascii_dec "0" c1).
  - intros [_ [Hc2 _]%andb_true_iff]%andb_true_iff.
    apply hex_not_x in Hc2 as [Hx HX].
    split; repeat destruct (ascii_dec _ _); congruence.
Qed.

Lemma py_int16_hex g :
  all_chars is_hex g = true → g ≠ EmptyString → is_Some (py_int16 g).
Proof.
  intros Hall Hne. unfold py_int16.
  destruct (startswith_0x_hex g Hall) as [-> ->]. simpl.
  unfold number. destruct g as [| c g]; [done |].
  by apply (digits_total is_hex), Hall; apply hex_digit_total.
Qed.

Lemma py_int10_digits g :
  all_chars is_digit g = true → g ≠ EmptyString → is_Some (py_int10 g).
Proof.
  intros Hall Hne. unfold py_int10, number. destruct g as [| c g]; [done |].
  by apply (digits_total is_digit), Hall; apply dec_digit_total.
Qed.

Lemma one_group_int16 m : one_group is_hex m → is_Some (py_int16 (grp 1 m)).
Proof. intros (g & -> & Hall & Hne). by apply py_int16_hex. Qed.

Lemma one_group_int10 m : one_group is_digit m → is_Some (py_int10 (grp 1 m)).
Proof. intros (g & -> & Hall & Hne). by apply py_int10_digits. Qed.


(** ** The debug entry builder *)

Lemma from_spec_total cur line :
  ∃ cur', from_spec cur line = Some cur' ∧ keeps_extent cur cur'.
Proof.
  unfold from_spec. destruct (re_search rx_spec line) as [m |] eqn:Hm.
  - destruct (one_group_int16 m) as [v ->]; [by eapply rx_ref_attr_group |].
    by eexists.
  - by exists cur.
Qed.

Lemma from_abs_total cur line :
  ∃ cur', from_abs cur line = Some cur' ∧ keeps_extent cur cur'.
Proof.
  unfold from_abs. destruct (re_search rx_abs line) as [m |] eqn:Hm.
  - destruct (one_group_int16 m) as [v ->]; [by eapply rx_ref_attr_group |].
    by eexists.
  - apply from_spec_total.
Qed.

Lemma from_link_total cur line :
  ∃ cur', from_link cur line = Some cur' ∧ keeps_extent cur cur'.
Proof.
  unfold from_link.
  destruct (re_search rx_link line) as [m |]; [destruct (Die.name cur) |];
    try apply from_abs_total.
  by eexists.
Qed.

Lemma from_name_total cur line :
  ∃ cur', from_name cur line = Some cur' ∧ keeps_extent cur cur'.
Proof.
  unfold from_name. destruct (re_search rx_name line) as [m |].
  - by eexists.
  - apply from_link_total.
Qed.

Lemma from_ranges_total cur line :
  ∃ cur', from_ranges cur line = Some cur' ∧ keeps_extent cur cur'.
Proof.
  unfold from_ranges. destruct (re_search rx_ranges line) as [m |] eqn:Hm.
  - destruct (one_group_int16 m) as [v ->]; [by eapply rx_ref_attr_group |].
    by eexists.
  - apply from_name_total.
Qed.

(** Without a [low], nothing from the high address tests on changes the
    extent; with one, [high] may be set. *)
Lemma from_hiud_total cur line :
  ∃ cur', from_hiud cur line = Some cur'
          ∧ Die.low cur' = Die.low cur
          ∧ (Die.low cur = None → Die.high cur' = Die.high cur).
Proof.
  unfold from_hiud.
  destruct (re_search rx_hiud line) as [m |] eqn:Hm;
    [destruct (Die.low cur) as [lo |] eqn:Hlo |].
  - destruct (one_group_int10 m) as [v ->]; [by eapply rx_hiud_group |].
    eexists. split; [done |]. by simpl.
  - destruct (from_ranges_total cur line) as (cur' & -> & Hl & Hh).
    exists cur'. rewrite Hl, Hh. by rewrite Hlo.
  - destruct (from_ranges_total cur line) as (cur' & -> & Hl & Hh).
    exists cur'. by rewrite Hl, Hh.
Qed.

Lemma from_hia_total cur line :
  ∃ cur', from_hia cur line = Some cur'
          ∧ Die.low cur' = Die.low cur
          ∧ (Die.low cur = None → Die.high cur' = Die.high cur).
Proof.
  unfold from_hia.
  destruct (re_search rx_hia line) as [m |] eqn:Hm;
    [destruct (Die.low cur) as [lo |] eqn:Hlo |].
  - destruct (one_group_int16 m) as [v ->]; [by eapply rx_addr_attr_group |].
    eexists. split; [done |]. by simpl.
  - destruct (from_hiud_total cur line) as (cur' & -> & Hl & Hh).
    exists cur'. rewrite Hl, Hlo. auto.
  - apply from_hiud_total.
Qed.

(** The attribute tests never raise, and keep [extent_ok]. *)
Lemma attr_line_total cur line :
  ∃ cur', attr_line cur line = Some cur'
          ∧ (extent_ok cur → extent_ok cur')
          ∧ (re_search rx_low line = None → Die.low cur = None →
             keeps_extent cur cur').
Proof.
  unfold attr_line. destruct (re_search rx_low line) as [m |] eqn:Hm.
  - destruct (one_group_int16 m) as [v ->]; [by eapply rx_addr_attr_group |].
    eexists. split; [done |]. split; [| done].
    intros _ _. by eexists.
  - destruct (from_hia_total cur line) as (cur' & -> & Hl & Hh).
    exists cur'. split; [done |]. split.
    + unfold extent_ok. rewrite Hl. intros Hok Hhigh.
      destruct (Die.low cur) as [lo |] eqn:Hlo; [by eexists |].
      apply Hok. by rewrite <- Hh.
    + intros _ Hlo. split; [done | by apply Hh].
Qed.

(** One line never raises. *)
Lemma di_line_total st raw : is_Some (di_line st raw).
Proof.
  unfold di_line.
  destruct (re_search rx_any_tag _) as [mtag |].
  - destruct (re_match rx_die_off _) as [moff |] eqn:Hoff; [| by eexists].
    destruct (one_group_int16 moff) as [v ->]; [by eapply rx_die_off_group |].
    by eexists.
  - destruct st.2 as [c |]; [| by eexists].
    destruct (attr_line_total c (chomp raw)) as (c' & -> & _).
    by eexists.
Qed.

Lemma di_lines_total lines : ∀ st, is_Some (di_lines st lines).
Proof.
  induction lines as [| raw lines IH]; intros st; simpl; [by eexists |].
  destruct (di_line_total st raw) as [st' ->]. apply IH.
Qed.

(** The debug entry builder never raises. *)
Lemma build_dies_total lines : is_Some (build_dies lines).
Proof.
  unfold build_dies. destruct (di_lines_total lines ([], None)) as [st ->].
  by eexists.
Qed.

(** ** The range table builder *)

Lemma appended_nil old : appended old [] = old.
Proof. destruct old as [l |]; simpl; [by rewrite app_nil_r | done]. Qed.

Lemma appended_app old a b : appended (appended old a) b = appended old (a ++ b).
Proof.
  destruct old as [l |]; simpl.
  - by rewrite app_assoc.
  - destruct a as [| x a]; simpl; [done |]. by destruct b.
Qed.

(** One iteration, read off the parsed triple. *)
Lemma dr_line_triple st raw :
  dr_raises raw = false →
  dr_line st raw =
    Some match dr_triple raw with
         | Some (off, s, e) =>
             if (s =? 0) && (e =? 0) then st
             else (<[off := default [] (st.1 !! off) ++ [(s, e)]]> st.1, S st.2)
         | None => st
         end.
Proof.
  unfold dr_raises, dr_triple, dr_line.
  destruct (re_match rx_dr raw) as [m |]; simpl; [| done].
  destruct (py_int16 (grp 1 m)) as [off |]; simpl; [| done].
  destruct (py_int16 (with_0x (grp 2 m))) as [s |]; simpl; [| done].
  destruct (py_int16 (with_0x (grp 3 m))) as [e |]; simpl; [| done].
  intros _. by destruct ((s =? 0) && (e =? 0)).
Qed.

Lemma pairs_for_cons off raw lines :
  pairs_for off (raw :: lines) =
    match dr_triple raw with
    | Some (o, s, e) =>
        if kept off (o, s, e) then (s, e) :: pairs_for off lines
        else pairs_for off lines
    | None => pairs_for off lines
    end.
Proof.
  unfold pairs_for. simpl.
  destruct (dr_triple raw) as [[[o s] e] |]; [| done].
  rewrite filter_cons.
  destruct (kept off (o, s, e)) eqn:Hk.
  - by rewrite decide_True.
  - rewrite decide_False; [done | congruence].
Qed.

Lemma pairs_for_app off l1 l2 :
  pairs_for off (l1 ++ l2) = pairs_for off l1 ++ pairs_for off l2.
Proof.
  unfold pairs_for. by rewrite omap_app, filter_app, map_app.
Qed.

Lemma pairs_for_no_terminator off lines : (0, 0) ∉ pairs_for off lines.
Proof.
  unfold pairs_for. intros Hin.
  apply list_elem_of_fmap in Hin as ([[o s] e] & [= <- <-] & Hin).
  apply list_elem_of_filter in Hin as [Hk _].
  unfold kept in Hk. simpl in Hk. by rewrite andb_false_r in Hk.
Qed.

(** The table after the loop: under every offset, what was there before
    followed by the pairs of the dump for that offset. *)
Lemma dr_lines_table lines : ∀ st,
  Forall (λ raw, dr_raises raw = false) lines →
  ∃ tbl n, dr_lines st lines = Some (tbl, n)
           ∧ ∀ off, tbl !! off = appended (st.1 !! off) (pairs_for off lines).
Proof.
  induction lines as [| raw lines IH]; intros st Hok.
  - exists st.1, st.2. split; [by destruct st |].
    intros off. by rewrite appended_nil.
  - apply Forall_cons in Hok as [Hraw Hok]. simpl.
    rewrite (dr_line_triple st raw Hraw). simpl.
    edestruct IH as (tbl & n & -> & Htbl); [exact Hok |].
    exists tbl, n. split; [done |]. intros off.
    rewrite Htbl, pairs_for_cons.
    destruct (dr_triple raw) as [[[o s] e] |]; [| done].
    unfold kept. simpl.
    destruct ((s =? 0) && (e =? 0)) eqn:Hz; simpl.
    + by rewrite andb_false_r.
    + rewrite andb_true_r. destruct (o =? off) eqn:Ho.
      * apply N.eqb_eq in Ho as ->. rewrite lookup_insert_eq.
        change ((s, e) :: pairs_for off lines) with ([(s, e)] ++ pairs_for off lines).
        rewrite <- appended_app. f_equal.
        by destruct (st.1 !! off).
      * apply N.eqb_neq in Ho. by rewrite lookup_insert_ne.
Qed.

Lemma dr_lines_app l1 l2 st :
  dr_lines st (l1 ++ l2) = st' ← dr_lines st l1; dr_lines st' l2.
Proof.
  revert st. induction l1 as [| raw l1 IH]; intros st; simpl; [done |].
  destruct (dr_line st raw) as [st' |]; simpl; [apply IH | done].
Qed.

(** A line that does not match leaves the state as it is. *)
Lemma dr_line_no_match st raw : re_match rx_dr raw = None → dr_line st raw = Some st.
Proof. unfold dr_line. by intros ->. Qed.

(** ** The name of an entry *)

Section NameFacts.
Variable name_map : gmap string string.
Variable dies_by_off : gmap N Die.t.
Variable swift_ok : bool.
Variable tool : string → option string.

Local Abbreviation rename := (mapped name_map).
Local Abbreviation resolve := (resolve_name name_map dies_by_off).
Local Abbreviation demangle_one := (swift_demangle_one swift_ok tool).
Local Abbreviation name_of := (emit_name name_map dies_by_off swift_ok tool).

Lemma truthy_Some s : truthy (Some s) = true ↔ s ≠ EmptyString.
Proof. destruct s; simpl; split; congruence. Qed.

Lemma truthy_Some_false s : truthy (Some s) = false ↔ s = EmptyString.
Proof. destruct s; simpl; split; congruence. Qed.

(** An entry with a direct name: the name, renamed once. *)
Lemma resolve_name_direct d :
  truthy (Die.name d) = true → resolve d = rename <$> Die.name d.
Proof.
  intros Hnm. unfold resolve_name. rewrite resolve_name_from_S. by rewrite Hnm.
Qed.

Lemma size_lookup_pos ref d2 :
  dies_by_off !! ref = Some d2 → ∃ n, size dies_by_off = S n.
Proof.
  intros Hd2. destruct (size dies_by_off) as [| n] eqn:Hsz; [| by eauto].
  apply map_size_empty_inv in Hsz. subst. by rewrite lookup_empty in Hd2.
Qed.

(** An entry without a name whose abstract origin has one: that name,
    renamed at both levels. *)
Lemma resolve_name_one_hop d ref d2 nm2 :
  truthy (Die.name d) = false →
  Die.abs d = Some ref →
  dies_by_off !! ref = Some d2 →
  Die.name d2 = Some nm2 →
  nm2 ≠ EmptyString →
  rename nm2 ≠ EmptyString →
  resolve d = Some (rename (rename nm2)).
Proof.
  intros Hnone Habs Hd2 Hnm2 Hne Hne'.
  destruct (size_lookup_pos ref d2 Hd2) as [n Hsz].
  unfold resolve_name. rewrite Hsz, resolve_name_from_S, Hnone.
  cbn [refs_loop]. rewrite Habs.
  rewrite decide_False by set_solver. rewrite Hd2.
  rewrite resolve_name_from_S, Hnm2.
  apply truthy_Some in Hne as ->.
  change (rename <$> Some nm2) with (Some (rename nm2)). cbv beta iota.
  by apply truthy_Some in Hne' as ->.
Qed.

(** Names that do not look like Swift symbols pass through. *)
Lemma swift_demangle_one_plain s :
  re_match SWIFT_MANGLED_RX s = None → demangle_one s = s.
Proof. unfold swift_demangle_one. intros ->. by destruct swift_ok. Qed.

(** The demangling step maps non-empty names to non-empty names. *)
Lemma swift_demangle_one_truthy s :
  s ≠ EmptyString → demangle_one s ≠ EmptyString.
Proof.
  intros Hs. unfold swift_demangle_one.
  destruct swift_ok; cbn [negb]; [| done].
  destruct (re_match SWIFT_MANGLED_RX s); [| done].
  destruct (tool s) as [out |]; [| done].
  destruct (truthy (Some (strip out))) eqn:Hout; [| done].
  by apply truthy_Some.
Qed.

(** The name used by the loop, for an entry with a direct name. *)
Lemma emit_name_direct d nm :
  Die.name d = Some nm → nm ≠ EmptyString → rename nm ≠ EmptyString →
  name_of d = Some (demangle_one (rename (rename nm))).
Proof.
  intros Hnm Hne Hne'. unfold emit_name.
  rewrite resolve_name_direct by (rewrite Hnm; by apply truthy_Some).
  rewrite Hnm. simpl. unfold py_or.
  apply truthy_Some in Hne' as Ht. rewrite !Ht. simpl.
  unfold maybe_demangle. by rewrite Ht.
Qed.

(** The name used by the loop, for an entry named through its abstract
    origin. *)
Lemma emit_name_one_hop d ref d2 nm2 :
  truthy (Die.name d) = false →
  Die.abs d = Some ref →
  dies_by_off !! ref = Some d2 →
  Die.name d2 = Some nm2 →
  nm2 ≠ EmptyString →
  rename nm2 ≠ EmptyString →
  rename (rename nm2) ≠ EmptyString →
  name_of d = Some (demangle_one (rename (rename (rename nm2)))).
Proof.
  intros Hnone Habs Hd2 Hnm2 Hne Hne' Hne''. unfold emit_name.
  rewrite (resolve_name_one_hop d ref d2 nm2) by done.
  unfold py_or. apply truthy_Some in Hne'' as Ht. rewrite !Ht. simpl.
  unfold maybe_demangle. by rewrite Ht.
Qed.

(** When resolution finds nothing usable, the loop has no name. *)
Lemma emit_name_unresolved d :
  truthy (resolve d) = false → truthy (name_of d) = false.
Proof.
  intros Hres. unfold emit_name, py_or. rewrite Hres.
  destruct (truthy (Die.name d)) eqn:Hnm; [| done].
  rewrite resolve_name_direct in Hres by done.
  destruct (Die.name d) as [nm |]; [| done].
  change (truthy (Some (rename nm)) = false) in Hres.
  apply truthy_Some_false in Hres.
  change (truthy (Some (maybe_demangle name_map swift_ok tool nm)) = false).
  apply truthy_Some_false. unfold maybe_demangle. rewrite Hnm. cbn [negb].
  rewrite Hres. unfold swift_demangle_one. by destruct swift_ok.
Qed.
End NameFacts.

(** ** The whole script *)

(** The end-to-end example: the terminator is left out and the pair of
    offset 0x1000 is emitted under the name of the entry. *)
Example end_to_end :
  main ∅ false no_tool "img" "uuid" "arm64" sample_dr sample_di
  = Some (mk_result "img" "uuid" "arm64" [Func.mk 256 512 "foo"]).
Proof. vm_compute. reflexivity. Qed.

(** A line of the ranges dump on which a conversion raises stops the
    script. *)
Lemma dr_line_raises st raw : dr_raises raw = true → dr_line st raw = None.
Proof.
  unfold dr_raises, dr_triple, dr_line.
  destruct (re_match rx_dr raw) as [m |]; simpl; [| done].
  destruct (py_int16 (grp 1 m)) as [off |]; simpl; [| done].
  destruct (py_int16 (with_0x (grp 2 m))) as [s |]; simpl; [| done].
  destruct (py_int16 (with_0x (grp 3 m))) as [e |]; simpl; done.
Qed.

Lemma build_ranges_raises lines :
  Exists (λ raw, dr_raises raw = true) lines → build_ranges lines = None.
Proof.
  unfold build_ranges. generalize (∅ : gmap N (list (N * N)), O).
  induction lines as [| raw lines IH]; intros st Hex.
  - by apply Exists_nil in Hex.
  - simpl. apply Exists_cons in Hex as [Hraw | Hex].
    + by rewrite dr_line_raises.
    + destruct (dr_line st raw) as [st' |]; simpl; [by apply IH | done].
Qed.

(** Such a line exists: the pattern accepts an [x] anywhere in an address
    token, the conversion only as part of the prefix. *)
Example dr_raises_example : dr_raises ("001000  1x2  0x200" +:+ nl) = true.
Proof. reflexivity. Qed.

(** The script prints a record exactly when no conversion of the ranges
    dump raises. *)
Lemma main_returns name_map swift_ok tool image uuid arch dr di :
  Forall (λ raw, dr_raises raw = false) dr →
  is_Some (main name_map swift_ok tool image uuid arch dr di).
Proof.
  intros Hok. unfold main, build_ranges.
  destruct (dr_lines_table dr (∅, O) Hok) as (tbl & n & -> & _).
  destruct (build_dies_total di) as [dies ->]. by eexists.
Qed.

(** * The claims *)

(** C1, as stated, fails: an entry whose direct pair also occurs in its
    range list is emitted twice, and nothing after the loop removes the
    copy. *)
Lemma functions_not_deduplicated :
  ¬ (∀ name_map swift_ok tool image uuid arch ranges_map dies,
       NoDup (functions (report name_map swift_ok tool image uuid arch ranges_map dies))).
Proof.
  intros Hall.
  specialize (Hall ∅ false no_tool "img" "uuid" "arm64" twice_ranges [twice_die]).
  vm_compute in Hall.
  apply NoDup_cons in Hall as [Hnotin _].
  apply Hnotin, list_elem_of_here.
Qed.

(** C1, amended: the [functions] list of the record is a rearrangement of
    the ranges the entries contributed, with every (start, end, name)
    triple kept as many times as it was emitted; so it is free of
    duplicates exactly when the emission loop produced none. *)
Theorem functions_keep_every_emitted_range
    name_map swift_ok tool image uuid arch ranges_map dies :
  let funcs := concat (map (contribution name_map (index_dies dies) ranges_map swift_ok tool)
                           dies) in
  functions (report name_map swift_ok tool image uuid arch ranges_map dies) ≡ₚ funcs
  ∧ (NoDup (functions (report name_map swift_ok tool image uuid arch ranges_map dies))
     ↔ NoDup funcs).
Proof.
  intros funcs. unfold report. simpl. rewrite emit_funcs. fold funcs.
  pose proof (py_sort_perm funcs) as Hperm.
  split; [done |]. by rewrite Hperm.
Qed.



(** C3: a subprogram-like entry with a direct pair [high > low], a range
    list of exactly two pairs with [e > s], and a name (the loop's [name]
    is a non-empty string) appends exactly three ranges to [funcs], the
    direct one then the two of the list, all under that name. *)
Theorem direct_and_two_ranges_emit_three
    name_map dies_by_off ranges_map swift_ok tool d lo hi roff s1 e1 s2 e2 nm st :
  is_subprogram_like d = true →
  Die.low d = Some lo → Die.high d = Some hi → lo < hi →
  Die.ranges_off d = Some roff →
  ranges_map !! roff = Some [(s1, e1); (s2, e2)] →
  s1 < e1 → s2 < e2 →
  emit_name name_map dies_by_off swift_ok tool d = Some nm →
  nm ≠ EmptyString →
  emit_die name_map dies_by_off ranges_map swift_ok tool st d
  = (st.1 ++ [Func.mk lo hi nm; Func.mk s1 e1 nm; Func.mk s2 e2 nm], st.2).
Proof.
  intros Hsub Hlo Hhi Hlh Hroff Hprs H1 H2 Hname Hnm.
  rewrite emit_die_pushed, Hsub, Hname.
  unfold emittable, direct_pairs, table_pairs, pushed, named.
  rewrite Hlo, Hhi, Hroff, Hprs.
  apply N.ltb_lt in Hlh as ->. apply truthy_Some in Hnm as ->. simpl.
  rewrite !filter_cons, filter_nil. simpl.
  by rewrite !decide_True by done.
Qed.

Lemma direct_and_two_ranges_emit_three_witness :
  emit_die ∅ (index_dies [three_die]) three_ranges false no_tool ([], O) three_die
  = ([Func.mk 16 32 "f"; Func.mk 64 80 "f"; Func.mk 96 128 "f"], O).
Proof.
  apply (direct_and_two_ranges_emit_three
           ∅ (index_dies [three_die]) three_ranges false no_tool three_die
           16 32 4096 64 80 96 128 "f" ([], O));
    try reflexivity; try discriminate.
Defined.



(** C5: on a line that gives the high address as an unsigned delta (and
    is neither a tag line nor a low address line), an open entry that
    already has a [low] gets [high = low + delta], unless the line also
    gives an absolute high address; an open entry without a [low] keeps
    its extent as it was.  The direct pair of the entry is then emitted
    only when the delta is positive, that is when [high > low]. *)
Theorem high_pc_delta_adds_to_low dies cur raw m :
  re_search rx_any_tag (chomp raw) = None →
  re_search rx_low (chomp raw) = None →
  re_search rx_hiud (chomp raw) = Some m →
  ∃ delta,
    py_int10 (grp 1 m) = Some delta
    ∧ (∀ lo, Die.low cur = Some lo → re_search rx_hia (chomp raw) = None →
         di_line (dies, Some cur) raw
         = Some (dies, Some (Die.set_high (lo + delta) cur))
         ∧ ∀ name st,
             emit_direct name (Die.set_high (lo + delta) cur) st
             = if 0 <? delta then push name lo (lo + delta) st else st)
    ∧ (Die.low cur = None →
         ∃ cur', di_line (dies, Some cur) raw = Some (dies, Some cur')
                 ∧ keeps_extent cur cur').
Proof.
  intros Htag Hlow Hhiud.
  destruct (one_group_int10 m) as [delta Hdelta]; [by eapply rx_hiud_group |].
  exists delta. split; [done |]. split.
  - intros lo Hlo Hhia. split.
    + unfold di_line. rewrite Htag. simpl.
      unfold attr_line, from_hia, from_hiud.
      rewrite Hlow, Hhia, Hhiud, Hlo, Hdelta. done.
    + intros name st. unfold emit_direct. simpl. rewrite Hlo.
      destruct (0 <? delta) eqn:Hd.
      * apply N.ltb_lt in Hd.
        assert ((lo <? lo + delta) = true) as -> by (apply N.ltb_lt; lia). done.
      * apply N.ltb_ge in Hd.
        assert ((lo <? lo + delta) = false) as -> by (apply N.ltb_ge; lia). done.
  - intros Hlo. unfold di_line. rewrite Htag. simpl.
    destruct (attr_line_total cur (chomp raw)) as (cur' & -> & _ & Hkeep).
    exists cur'. split; [done |]. by apply Hkeep.
Qed.

Lemma high_pc_delta_adds_to_low_witness :
  di_line ([], Some low_die) delta_line
  = Some ([], Some (Die.set_high (4294983520 + 32) low_die)).
Proof.
  destruct (high_pc_delta_adds_to_low [] low_die delta_line [(1%nat, "32")])
    as (delta & Hdelta & Hset & _); [reflexivity | reflexivity | reflexivity |].
  vm_compute in Hdelta. injection Hdelta as <-.
  apply (Hset 4294983520); reflexivity.
Defined.

(** C6: with the rename map [{"obf": "Original"}], a subprogram-like entry
    whose direct name is [obf] emits all its ranges under [Original], and
    so does an entry without a direct name whose abstract origin is an
    entry named [obf]. *)
Theorem rename_map_names_the_ranges dies_by_off ranges_map swift_ok tool d st :
  is_subprogram_like d = true →
  Die.name d = Some "obf"
  ∨ (truthy (Die.name d) = false
     ∧ ∃ ref d2, Die.abs d = Some ref
                 ∧ dies_by_off !! ref = Some d2
                 ∧ Die.name d2 = Some "obf") →
  emit_name rename_obf dies_by_off swift_ok tool d = Some "Original"
  ∧ emit_die rename_obf dies_by_off ranges_map swift_ok tool st d
    = (st.1 ++ named "Original" (emittable ranges_map d), st.2).
Proof.
  intros Hsub Hname.
  assert (emit_name rename_obf dies_by_off swift_ok tool d = Some "Original") as Hnm.
  { destruct Hname as [Hdirect | (Hnone & ref & d2 & Habs & Hd2 & Hnm2)].
    - rewrite (emit_name_direct _ _ _ _ d "obf") by done.
      f_equal. by apply swift_demangle_one_plain.
    - rewrite (emit_name_one_hop _ _ _ _ d ref d2 "obf") by done.
      f_equal. by apply swift_demangle_one_plain. }
  split; [done |].
  by rewrite emit_die_pushed, Hsub, Hnm.
Qed.

Lemma rename_map_names_the_ranges_witness :
  let idx := index_dies [obf_die; inlined_obf_die] in
  emit_die rename_obf idx ∅ false no_tool ([], O) obf_die
  = ([Func.mk 16 32 "Original"], O)
  ∧ emit_die rename_obf idx ∅ false no_tool ([], O) inlined_obf_die
    = ([Func.mk 64 80 "Original"], O).
Proof.
  intros idx. split.
  - destruct (rename_map_names_the_ranges idx ∅ false no_tool obf_die ([], O))
      as [_ Hemit]; [reflexivity | by left | exact Hemit].
  - destruct (rename_map_names_the_ranges idx ∅ false no_tool inlined_obf_die ([], O))
      as [_ Hemit]; [reflexivity | | exact Hemit].
    right. split; [reflexivity |]. exists 16, obf_die. by vm_compute.
Defined.


(** C8: every range of the [functions] list has [end > start] and a
    non-empty name; and a subprogram-like entry that could emit a range
    but for which no name is resolved appends nothing to [funcs] and is
    counted in [miss_name], once for each range it could have emitted. *)
Theorem functions_valid_and_nameless_counted
    name_map swift_ok tool image uuid arch ranges_map dies :
  (∀ f, f ∈ functions (report name_map swift_ok tool image uuid arch ranges_map dies) →
        Func.start f < Func.end_ f ∧ Func.name f ≠ EmptyString)
  ∧ (∀ d st,
       is_subprogram_like d = true →
       emittable ranges_map d ≠ [] →
       truthy (resolve_name name_map (index_dies dies) d) = false →
       let st' := emit_die name_map (index_dies dies) ranges_map swift_ok tool st d in
       st'.1 = st.1
       ∧ st'.2 = (st.2 + length (emittable ranges_map d))%nat
       ∧ (st.2 < st'.2)%nat).
Proof.
  split.
  - intros f Hf. unfold report in Hf. simpl in Hf.
    rewrite py_sort_perm, emit_funcs in Hf.
    apply list_elem_of_In, in_concat in Hf as (fs & Hfs & Hf).
    apply in_map_iff in Hfs as (d & <- & _).
    apply list_elem_of_In in Hf. by eapply contribution_valid.
  - intros d st Hsub Hemit Hres st'. subst st'.
    rewrite emit_die_pushed, Hsub.
    apply (emit_name_unresolved _ _ swift_ok tool) in Hres.
    assert (0 < length (emittable ranges_map d))%nat.
    { destruct (emittable ranges_map d); simpl; [done | lia]. }
    unfold pushed, named.
    destruct (emit_name name_map (index_dies dies) swift_ok tool d) as [nm |];
      [rewrite Hres |]; simpl; repeat split; lia.
Qed.

Lemma functions_valid_and_nameless_counted_witness :
  let st' := emit_die ∅ (index_dies [anonymous_die]) ∅ false no_tool ([], 3%nat)
               anonymous_die in
  st'.1 = [] ∧ st'.2 = 4%nat.
Proof.
  destruct (functions_valid_and_nameless_counted
              ∅ false no_tool "img" "uuid" "arm64" ∅ [anonymous_die]) as [_ Hcount].
  destruct (Hcount anonymous_die ([], 3%nat)) as (Hfuncs & Hmiss & _).
  - reflexivity.
  - discriminate.
  - vm_compute. reflexivity.
  - split; [exact Hfuncs | exact Hmiss].
Defined.



(** C10: a line that starts, after optional blanks, with a token of one
    to three hex digits (the next character, if any, is not a hex digit)
    does not match [rx_dr]; the loop skips it, and the built table is the
    one of the dump without that line. *)
Theorem short_offset_is_not_a_ranges_line ws tok rest :
  all_chars is_space ws = true →
  all_chars is_hex tok = true →
  (1 ≤ String.length tok < 4)%nat →
  run is_hex rest = O →
  let raw := ws +:+ tok +:+ rest in
  re_match rx_dr raw = None
  ∧ (∀ st, dr_line st raw = Some st)
  ∧ (∀ before after,
       build_ranges (before ++ raw :: after) = build_ranges (before ++ after)).
Proof.
  intros Hws Htok Hlen Hrest raw.
  assert (re_match rx_dr raw = None) as Hno.
  { apply rx_dr_needs_four. subst raw.
    assert (run is_space (tok +:+ rest) = O) as Hsp.
    { destruct tok as [| c tok]; simpl in *; [lia |].
      apply andb_true_iff in Htok as [Hc _].
      destruct (is_space c) eqn:Hs; [| done].
      apply space_not_hex in Hs. congruence. }
    rewrite (run_app is_space ws) by done. rewrite Hsp, Nat.add_0_r.
    rewrite str_drop_app, (run_app is_hex tok) by done. lia. }
  split; [done |]. split.
  - intros st. by apply dr_line_no_match.
  - intros before after. unfold build_ranges.
    rewrite !dr_lines_app. simpl.
    destruct (dr_lines (∅, O) before) as [st |]; simpl; [| done].
    by rewrite dr_line_no_match.
Qed.

Lemma short_offset_is_not_a_ranges_line_witness :
  re_match rx_dr ("  100  0x100  0x200" +:+ nl) = None
  ∧ build_ranges (("  100  0x100  0x200" +:+ nl) :: sample_dr) = build_ranges sample_dr.
Proof.
  destruct (short_offset_is_not_a_ranges_line "  " "100" ("  0x100  0x200" +:+ nl))
    as (Hno & _ & Hskip); [reflexivity | reflexivity | simpl; lia | reflexivity |].
  split; [exact Hno | exact (Hskip [] sample_dr)].
Defined.

(** * Further properties *)

(** ** The debug entry builder, as a whole *)

(** The attribute tests leave the tag and the offset alone. *)
Lemma attr_line_head cur line cur' :
  attr_line cur line = Some cur' → head_of cur' = head_of cur.
Proof.
  unfold attr_line, from_hia, from_hiud, from_ranges, from_name, from_link,
    from_abs, from_spec.
  intros Hrun. repeat case_match; simplify_option_eq; done.
Qed.

Lemma attr_line_extent cur line cur' :
  attr_line cur line = Some cur' → extent_ok cur → extent_ok cur'.
Proof.
  intros Hrun. destruct (attr_line_total cur line) as (cur2 & Hrun2 & Hok & _).
  rewrite Hrun in Hrun2. by injection Hrun2 as <-.
Qed.

Lemma entries_snoc dies c : entries (dies, Some c) = dies ++ [c].
Proof. reflexivity. Qed.

(** One iteration: a tag line adds an entry with its header, any other
    line adds none and changes no header. *)
Lemma di_line_heads st raw st' :
  di_line st raw = Some st' →
  map head_of (entries st')
  = map head_of (entries st) ++ match header raw with Some h => [h] | None => [] end.
Proof.
  destruct st as [dies cur]. unfold di_line, header.
  destruct (re_search rx_any_tag (chomp raw)) as [mtag |]; simpl.
  - assert (entries (dies, cur) = match cur with Some c => dies ++ [c] | None => dies end)
      as Hent by (unfold entries; destruct cur; simpl; by rewrite ?app_nil_r).
    rewrite Hent.
    destruct (re_match rx_die_off (chomp raw)) as [moff |]; simpl.
    + destruct (py_int16 (grp 1 moff)) as [v |]; simpl; [| done].
      intros [= <-]. by rewrite entries_snoc, map_app.
    + intros [= <-]. by rewrite entries_snoc, map_app.
  - rewrite app_nil_r. destruct cur as [c |]; simpl; [| by intros [= <-]].
    destruct (attr_line c (chomp raw)) as [c' |] eqn:Hattr; simpl; [| done].
    intros [= <-]. rewrite !entries_snoc, !map_app. simpl.
    by rewrite (attr_line_head _ _ _ Hattr).
Qed.

Lemma di_line_extent st raw st' :
  di_line st raw = Some st' →
  Forall extent_ok (entries st) → Forall extent_ok (entries st').
Proof.
  destruct st as [dies cur]. unfold di_line.
  destruct (re_search rx_any_tag (chomp raw)) as [mtag |]; simpl.
  - assert (entries (dies, cur) = match cur with Some c => dies ++ [c] | None => dies end)
      as Hent by (unfold entries; destruct cur; simpl; by rewrite ?app_nil_r).
    rewrite Hent.
    destruct (re_match rx_die_off (chomp raw)) as [moff |]; simpl.
    + destruct (py_int16 (grp 1 moff)) as [v |]; simpl; [| done].
      intros [= <-] Hall. rewrite entries_snoc. apply Forall_app. split; [done |].
      constructor; [| done]. by intros [hi [=]].
    + intros [= <-] Hall. rewrite entries_snoc. apply Forall_app. split; [done |].
      constructor; [| done]. by intros [hi [=]].
  - destruct cur as [c |]; simpl; [| by intros [= <-]].
    destruct (attr_line c (chomp raw)) as [c' |] eqn:Hattr; simpl; [| done].
    intros [= <-]. rewrite !entries_snoc, !Forall_app, !Forall_singleton.
    intros [Hdies Hc]. split; [done |]. by eapply attr_line_extent.
Qed.

Lemma di_lines_run lines : ∀ st,
  ∃ st', di_lines st lines = Some st'
         ∧ map head_of (entries st') = map head_of (entries st) ++ omap header lines
         ∧ (Forall extent_ok (entries st) → Forall extent_ok (entries st')).
Proof.
  induction lines as [| raw lines IH]; intros st; simpl.
  - exists st. by rewrite app_nil_r.
  - destruct (di_line_total st raw) as [st1 Hst1]. rewrite Hst1. simpl.
    destruct (IH st1) as (st' & Hrun & Hheads & Hext).
    exists st'. split; [done |]. split.
    + rewrite Hheads, (di_line_heads _ _ _ Hst1), <- app_assoc.
      by destruct (header raw).
    + intros Hall. eapply Hext, di_line_extent; eauto.
Qed.

Lemma build_dies_entries lines :
  build_dies lines = entries <$> di_lines ([], None) lines.
Proof.
  unfold build_dies. destruct (di_lines ([], None) lines) as [[dies cur] |]; simpl; [| done].
  unfold entries. simpl. destruct cur; by rewrite ?app_nil_r.
Qed.


(** X2: every entry the builder yields has a [high] only if it has a
    [low]: a high address that comes before the low address of its entry
    is dropped. *)
Theorem build_dies_high_needs_low lines :
  ∃ dies, build_dies lines = Some dies ∧ Forall extent_ok dies.
Proof.
  rewrite build_dies_entries.
  destruct (di_lines_run lines ([], None)) as (st' & -> & _ & Hext).
  exists (entries st'). split; [done |]. apply Hext. constructor.
Qed.



(** ** The index of the entries *)

Lemma index_dies_snoc dies d :
  index_dies (dies ++ [d])
  = match Die.off d with
    | Some o => <[o := d]> (index_dies dies)
    | None => index_dies dies
    end.
Proof. unfold index_dies. by rewrite foldl_app. Qed.

(** X4: looking an offset up in the index gives the last entry of the
    list that carries this offset; entries without an offset are never
    found, and an offset no entry carries is not a key. *)
Theorem index_dies_lookup_last dies o :
  index_dies dies !! o = last (filter (λ d, Die.off d = Some o) dies).
Proof.
  induction dies as [| d dies IH] using rev_ind; [done |].
  rewrite index_dies_snoc, filter_app, filter_cons, filter_nil.
  destruct (Die.off d) as [o' |] eqn:Hoff.
  - destruct (decide (o' = o)) as [-> | Hne].
    + rewrite lookup_insert_eq, decide_True by done. by rewrite last_snoc.
    + rewrite lookup_insert_ne by done.
      rewrite decide_False by congruence. by rewrite app_nil_r.
  - rewrite decide_False by congruence. by rewrite app_nil_r.
Qed.

(** ** Name resolution: which names are found *)

Section ResolveMore.
Variable name_map : gmap string string.
Variable dies_by_off : gmap N Die.t.

Local Abbreviation rename := (mapped name_map).
Local Abbreviation loop_refs := (refs_loop name_map dies_by_off).
Local Abbreviation resolve_from := (resolve_name_from name_map dies_by_off).
Local Abbreviation resolve := (resolve_name name_map dies_by_off).
Local Abbreviation reach := (reaches dies_by_off).
Local Abbreviation renamed_from := (renamed_from name_map dies_by_off).
Local Abbreviation exhausted := (exhausted dies_by_off).

Lemma refs_loop_sound rec :
  (∀ d2 s nm2 s', rec d2 s = Some (Some nm2, s') → renamed_from d2 nm2) →
  ∀ ks seen nm seen',
    loop_refs rec ks seen = Some (Some nm, seen') →
    ∃ ref d2 nm2,
      Some ref ∈ ks ∧ dies_by_off !! ref = Some d2
      ∧ renamed_from d2 nm2 ∧ nm = rename nm2.
Proof.
  intros Hrec ks. induction ks as [| [ref |] ks IH]; intros seen nm seen'; simpl.
  - done.
  - assert (∀ s, loop_refs rec ks s = Some (Some nm, seen') →
              ∃ ref0 d2 nm2, Some ref0 ∈ Some ref :: ks ∧ dies_by_off !! ref0 = Some d2
                             ∧ renamed_from d2 nm2 ∧ nm = rename nm2) as Hnext.
    { intros s (ref0 & d2 & nm2 & Hin & Hrest)%IH.
      exists ref0, d2, nm2. split; [by apply list_elem_of_further | done]. }
    destruct (decide (ref ∈ seen)); [by apply Hnext |].
    destruct (dies_by_off !! ref) as [d2 |] eqn:Hd2; [| by apply Hnext].
    destruct (rec d2 ({[ref]} ∪ seen)) as [[nm2 seen2] |] eqn:Hcall; [| done].
    destruct (truthy nm2) eqn:Ht; [| by apply Hnext].
    destruct nm2 as [nm2 |]; [| done]. intros [= <- <-].
    exists ref, d2, nm2. split; [apply list_elem_of_here |]. eauto.
  - intros (ref0 & d2 & nm2 & Hin & Hrest)%IH.
    exists ref0, d2, nm2. split; [by apply list_elem_of_further | done].
Qed.

Lemma resolve_name_from_sound fuel : ∀ d seen nm seen',
  resolve_from fuel d seen = Some (Some nm, seen') → renamed_from d nm.
Proof.
  induction fuel as [| fuel IH]; intros d seen nm seen'; [done |].
  rewrite resolve_name_from_S. destruct (truthy (Die.name d)) eqn:Ht.
  - destruct (Die.name d) as [nm0 |] eqn:Hnm0; [| done]. intros [= <- <-].
    exists d, nm0, O. repeat split; [constructor | done | by apply truthy_Some].
  - intros (ref & d2 & nm2 & Hin & Hd2 & (d' & nm0 & k & Hreach & Hnm0 & Hne & ->) & ->)
      %(refs_loop_sound _ IH).
    exists d', nm0, (S k). repeat split; try done.
    eapply reaches_step; [| exact Hd2 | exact Hreach].
    apply elem_of_cons in Hin as [[= <-] | Hin]; [by left |].
    apply list_elem_of_singleton in Hin as [= <-]. by right.
Qed.

Hypothesis Hmap : no_empty_rename name_map.

Lemma rename_truthy nm : nm ≠ EmptyString → rename nm ≠ EmptyString.
Proof.
  intros Hne. unfold mapped. destruct (name_map !! nm) as [v |] eqn:Hv; simpl; [| done].
  by eapply Hmap.
Qed.

Lemma rename_truthy_opt r : truthy r = true → truthy (rename <$> r) = true.
Proof.
  destruct r as [nm |]; [| done]. simpl.
  intros Hne%truthy_Some. by apply truthy_Some, rename_truthy.
Qed.

Lemma settled_mono seen seen' o :
  seen ⊆ seen' → settled dies_by_off seen o → settled dies_by_off seen' o.
Proof.
  intros Hsub Hset d2 Hd2. destruct (Hset d2 Hd2) as [Hnm Hrefs].
  split; [done |]. intros ref Href. apply Hsub. by apply Hrefs.
Qed.

Lemma refs_loop_exhausts rec :
  (∀ d2 s r s', rec d2 s = Some (r, s') → truthy r = false → exhausted d2 s s') →
  ∀ ks seen r seen',
    loop_refs rec ks seen = Some (r, seen') → truthy r = false →
    (∀ ref, Some ref ∈ ks → ref ∈ seen')
    ∧ seen ⊆ seen'
    ∧ ∀ o, o ∈ seen' → o ∉ seen → settled dies_by_off seen' o.
Proof.
  intros Hrec ks. induction ks as [| [ref |] ks IH]; intros seen r seen'; simpl.
  - intros [= <- <-] _. split; [by intros ref Hin%elem_of_nil |]. split; [done |].
    by intros o Hin Hnot.
  - destruct (decide (ref ∈ seen)) as [Hseen | Hfresh].
    { intros Hrun Hr. destruct (IH _ _ _ Hrun Hr) as (Hks & Hsub & Hnew).
      split; [| done]. intros ref0 [[= ->] | Hin]%elem_of_cons; [by apply Hsub | by apply Hks]. }
    destruct (dies_by_off !! ref) as [d2 |] eqn:Hd2.
    + destruct (rec d2 ({[ref]} ∪ seen)) as [[nm2 seen2] |] eqn:Hcall; [| done].
      destruct (truthy nm2) eqn:Ht.
      { intros [= <- <-] Hr. by rewrite rename_truthy_opt in Hr. }
      intros Hrun Hr. destruct (IH _ _ _ Hrun Hr) as (Hks & Hsub & Hnew).
      destruct (Hrec _ _ _ _ Hcall Ht) as (Hname2 & Hrefs2 & Hsub2 & Hnew2).
      split; [| split].
      * intros ref0 [[= ->] | Hin]%elem_of_cons; [| by apply Hks]. set_solver.
      * set_solver.
      * intros o Hin Hnot. destruct (decide (o ∈ seen2)) as [Hin2 | Hnot2]; [| by apply Hnew].
        destruct (decide (o = ref)) as [-> | Hne].
        -- intros d3 Hd3. rewrite Hd2 in Hd3. injection Hd3 as <-.
           split; [done |]. intros ref0 Href. apply Hsub. by apply Hrefs2.
        -- apply (settled_mono seen2); [done |]. apply Hnew2; [done | set_solver].
    + intros Hrun Hr. destruct (IH _ _ _ Hrun Hr) as (Hks & Hsub & Hnew).
      split; [| split].
      * intros ref0 [[= ->] | Hin]%elem_of_cons; [| by apply Hks]. set_solver.
      * set_solver.
      * intros o Hin Hnot. destruct (decide (o = ref)) as [-> | Hne].
        -- intros d3 Hd3. by rewrite Hd2 in Hd3.
        -- apply Hnew; [done | set_solver].
  - intros Hrun Hr. destruct (IH _ _ _ Hrun Hr) as (Hks & Hsub & Hnew).
    split; [| done]. intros ref0 [[=] | Hin]%elem_of_cons. by apply Hks.
Qed.

Lemma resolve_name_from_exhausts fuel : ∀ d seen r seen',
  resolve_from fuel d seen = Some (r, seen') → truthy r = false →
  exhausted d seen seen'.
Proof.
  induction fuel as [| fuel IH]; intros d seen r seen'; [done |].
  rewrite resolve_name_from_S. destruct (truthy (Die.name d)) eqn:Ht.
  - intros [= <- <-] Hr. by rewrite rename_truthy_opt in Hr.
  - intros Hrun Hr.
    destruct (refs_loop_exhausts _ IH _ _ _ _ Hrun Hr) as (Hks & Hsub & Hnew).
    split; [done |]. split; [| done].
    intros ref [Href | Href]; apply Hks; rewrite <- Href.
    + apply list_elem_of_here.
    + apply list_elem_of_further, list_elem_of_here.
Qed.

(** When the top-level call finds nothing, nothing with a name can be
    reached. *)
Lemma resolve_name_nothing_reachable d d' :
  truthy (resolve d) = false → reach d d' → truthy (Die.name d') = false.
Proof.
  intros Hres Hreach.
  destruct (resolve_name_returns name_map dies_by_off d) as [seen' Hrun].
  destruct (resolve_name_from_exhausts _ _ _ _ _ Hrun Hres) as (Hname & Hrefs & _ & Hnew).
  assert (∀ a b, reach a b →
            (a = d ∨ ∃ o, o ∈ seen' ∧ dies_by_off !! o = Some a) →
            truthy (Die.name b) = false) as Hall.
  { intros a b Hab. induction Hab as [a | a ref a2 b Href Ha2 Hab IHab].
    - intros [-> | (o & Ho & Hlook)]; [done |].
      by destruct (Hnew o Ho (not_elem_of_empty o) a Hlook).
    - intros Ha. apply IHab. right. exists ref. split; [| done].
      destruct Ha as [-> | (o & Ho & Hlook)]; [by apply Hrefs |].
      destruct (Hnew o Ho (not_elem_of_empty o) a Hlook) as [_ Hin]. by apply Hin. }
  apply (Hall d d' Hreach). by left.
Qed.
End ResolveMore.





(** A reference that is not in the index is marked as seen and passed
    over. *)
Lemma refs_loop_dangling name_map dies_by_off rec ref ks seen :
  ref ∉ seen → dies_by_off !! ref = None →
  refs_loop name_map dies_by_off rec (Some ref :: ks) seen
  = refs_loop name_map dies_by_off rec ks ({[ref]} ∪ seen).
Proof. intros Hfresh Hr. cbn [refs_loop]. by rewrite decide_False, Hr. Qed.

(** X7: for an entry without a name, the abstract origin is tried before
    the specification: when the abstract origin is an indexed entry with a
    name, that name is returned whatever the specification is; when the
    abstract origin is absent or missing from the index, the name of the
    specification is returned. Either way the rename map was applied
    twice. *)
Theorem abstract_origin_before_specification name_map dies_by_off d ref d2 nm2 :
  truthy (Die.name d) = false →
  dies_by_off !! ref = Some d2 →
  Die.name d2 = Some nm2 →
  nm2 ≠ EmptyString →
  mapped name_map nm2 ≠ EmptyString →
  Die.abs d = Some ref
  ∨ (Die.spec d = Some ref
     ∧ (Die.abs d = None ∨ ∃ r, Die.abs d = Some r ∧ dies_by_off !! r = None)) →
  resolve_name name_map dies_by_off d
  = Some (mapped name_map (mapped name_map nm2)).
Proof.
  intros Hnone Hd2 Hnm2 Hne Hne' [Habs | [Hspec Habs]].
  - by eapply resolve_name_one_hop.
  - destruct (size_lookup_pos dies_by_off ref d2 Hd2) as [n Hsz].
    unfold resolve_name. rewrite Hsz, resolve_name_from_S, Hnone.
    assert (∀ seen, ref ∉ seen →
              refs_loop name_map dies_by_off
                (resolve_name_from name_map dies_by_off (S n)) [Some ref] seen
              = Some (Some (mapped name_map (mapped name_map nm2)), {[ref]} ∪ seen))
      as Hlast.
    { intros seen Hfresh. cbn [refs_loop].
      rewrite decide_False by done. rewrite Hd2, resolve_name_from_S, Hnm2.
      apply truthy_Some in Hne as ->.
      change (mapped name_map <$> Some nm2) with (Some (mapped name_map nm2)).
      cbv beta iota. by apply truthy_Some in Hne' as ->. }
    rewrite Hspec. destruct Habs as [-> | (r & -> & Hr)].
    + change (refs_loop name_map dies_by_off ?rec [None; Some ref] ∅)
        with (refs_loop name_map dies_by_off rec [Some ref] ∅).
      by rewrite Hlast by set_solver.
    + assert (r ≠ ref) as Hne_r by congruence.
      rewrite (refs_loop_dangling name_map dies_by_off) by (done || set_solver).
      by rewrite Hlast by set_solver.
Qed.

Lemma abstract_origin_before_specification_witness :
  resolve_name rename_obf (index_dies [obf_die; spec_only_die]) spec_only_die
  = Some "Original".
Proof.
  apply (abstract_origin_before_specification
           rename_obf (index_dies [obf_die; spec_only_die]) spec_only_die 16 obf_die "obf");
    try reflexivity; try discriminate.
  right. split; [reflexivity |]. right. exists 999. split; reflexivity.
Defined.

(** ** The emission loop: what is emitted and what is counted *)

Section EmitMore.
Variable name_map : gmap string string.
Variable dies_by_off : gmap N Die.t.
Variable ranges_map : gmap N (list (N * N)).
Variable swift_ok : bool.
Variable tool : string → option string.

Local Abbreviation name_of := (emit_name name_map dies_by_off swift_ok tool).
Local Abbreviation loop := (emit name_map dies_by_off ranges_map swift_ok tool).
Local Abbreviation contrib :=
  (contribution name_map dies_by_off ranges_map swift_ok tool).
Local Abbreviation miss := (missed name_map dies_by_off ranges_map swift_ok tool).

Lemma missed_closed d :
  miss d =
    if is_subprogram_like d
    then match name_of d with
         | Some nm => if truthy (Some nm) then O else length (emittable ranges_map d)
         | None => length (emittable ranges_map d)
         end
    else O.
Proof.
  unfold missed. rewrite emit_die_pushed.
  destruct (is_subprogram_like d); [| done].
  unfold pushed.
  destruct (name_of d) as [nm |]; [destruct (truthy (Some nm)) |]; done.
Qed.

Lemma contribution_or_missed d :
  (length (contrib d) + miss d)%nat = candidates ranges_map d.
Proof.
  rewrite contribution_closed, missed_closed. unfold candidates.
  destruct (is_subprogram_like d); [| done].
  destruct (name_of d) as [nm |]; [destruct (truthy (Some nm)) |]; simpl;
    unfold named; rewrite ?length_map; lia.
Qed.

Lemma emit_accounts dies :
  (length (loop dies).1 + (loop dies).2)%nat
  = list_sum (map (candidates ranges_map) dies).
Proof.
  rewrite emit_funcs, emit_missed.
  induction dies as [| d dies IH]; simpl; [done |].
  rewrite length_app, <- (contribution_or_missed d). lia.
Qed.

(** The ranges of one entry, as a membership test. *)
Lemma elem_of_contribution d f :
  f ∈ contrib d ↔
    is_subprogram_like d = true
    ∧ (Func.start f, Func.end_ f) ∈ emittable ranges_map d
    ∧ name_of d = Some (Func.name f)
    ∧ Func.name f ≠ EmptyString.
Proof.
  rewrite contribution_closed. split.
  - intros Hin. destruct (is_subprogram_like d); [| by apply elem_of_nil in Hin].
    destruct (name_of d) as [nm |]; [| by apply elem_of_nil in Hin].
    destruct (truthy (Some nm)) eqn:Hnm; [| by apply elem_of_nil in Hin].
    apply list_elem_of_fmap in Hin as ([s e] & -> & Hin). simpl.
    repeat split; try done. by apply truthy_Some.
  - intros (-> & Hin & -> & Hnm%truthy_Some). rewrite Hnm.
    apply list_elem_of_fmap. exists (Func.start f, Func.end_ f).
    split; [by destruct f | done].
Qed.
End EmitMore.

(** X8: every pair a subprogram-like entry could emit is either emitted
    or counted as missing its name, never both and never dropped: after
    the loop, [len(funcs) + miss_name] is the number of such pairs over
    all the entries; entries of other tags add to neither. *)
Theorem every_candidate_is_emitted_or_counted
    name_map dies_by_off ranges_map swift_ok tool dies :
  let st := emit name_map dies_by_off ranges_map swift_ok tool dies in
  (length st.1 + st.2)%nat = list_sum (map (candidates ranges_map) dies).
Proof. intros st. apply emit_accounts. Qed.

(** X9: a range is in the [functions] list of the record exactly when
    some subprogram-like entry of the list has it as its direct pair with
    [high > low] or in its range list with [e > s], and the name of the
    range is the non-empty name the loop computed for that entry. *)
Theorem functions_are_the_named_candidates
    name_map swift_ok tool image uuid arch ranges_map dies f :
  f ∈ functions (report name_map swift_ok tool image uuid arch ranges_map dies)
  ↔ ∃ d, d ∈ dies
         ∧ is_subprogram_like d = true
         ∧ (Func.start f, Func.end_ f) ∈ emittable ranges_map d
         ∧ emit_name name_map (index_dies dies) swift_ok tool d = Some (Func.name f)
         ∧ Func.name f ≠ EmptyString.
Proof.
  unfold report. simpl. rewrite py_sort_perm, emit_funcs.
  rewrite list_elem_of_In, in_concat. split.
  - intros (fs & Hfs & Hf). apply in_map_iff in Hfs as (d & <- & Hd).
    exists d. split; [by apply list_elem_of_In |].
    by apply elem_of_contribution, list_elem_of_In.
  - intros (d & Hd & Hrest). eexists. split.
    + apply in_map_iff. exists d. split; [done | by apply list_elem_of_In].
    + by apply list_elem_of_In, elem_of_contribution.
Qed.

(** ** The demangling step *)

Lemma str_drop_all s : str_drop (String.length s) s = EmptyString.
Proof. induction s as [| c s IH]; simpl; done. Qed.

Lemma run_all p s : all_chars p s = true → run p s = String.length s.
Proof.
  induction s as [| c s IH]; simpl; [done |].
  intros [-> Hs]%andb_true_iff. by rewrite IH.
Qed.

(** Stripping a string of blanks leaves nothing. *)
Lemma strip_blank out : all_chars is_space out = true → strip out = EmptyString.
Proof.
  intros Hall. unfold strip, lstrip. by rewrite run_all, str_drop_all.
Qed.

Lemma is_char_dec a c : is_char a c = if ascii_dec a c then true else false.
Proof.
  unfold is_char, code. destruct (ascii_dec a c) as [-> | Hne].
  - apply N.eqb_refl.
  - apply N.eqb_neq. intros Heq. apply Hne.
    by rewrite <- (ascii_N_embedding a), <- (ascii_N_embedding c), Heq.
Qed.

(** [SWIFT_MANGLED_RX] is a test on the first characters of the name. *)
Lemma swift_mangled_rx_prefix s :
  (if re_match SWIFT_MANGLED_RX s is Some _ then true else false) = swift_prefixed s.
Proof.
  unfold re_match, SWIFT_MANGLED_RX, swift_prefixed, startswith.
  cbn [seqs lit exec]. unfold accept.
  assert (∀ r, String.prefix EmptyString r = true) as Hnil by (by intros []).
  destruct s as [| c1 [| c2 [| c3 s]]]; cbn [String.prefix];
    rewrite ?is_char_dec;
    repeat (destruct (ascii_dec _ _) as [<- | ?]; cbn [String.prefix orb]; try done);
    rewrite ?Hnil; try congruence; try done; by vm_compute.
Qed.

(** X10: the demangling step never loses a name: a non-empty name comes
    out non-empty whatever the tool prints, and the name comes out
    unchanged when it does not start with [$s], [_$s], [_T] or [$S] (the
    tool is then not consulted), when running the tool raises, and when
    the tool prints nothing but blanks. *)
Theorem demangling_never_loses_a_name swift_ok tool s :
  (s ≠ EmptyString → swift_demangle_one swift_ok tool s ≠ EmptyString)
  ∧ (swift_prefixed s = false → swift_demangle_one swift_ok tool s = s)
  ∧ (tool s = None → swift_demangle_one swift_ok tool s = s)
  ∧ (∀ out, tool s = Some out → all_chars is_space out = true →
            swift_demangle_one swift_ok tool s = s).
Proof.
  split; [apply swift_demangle_one_truthy |].
  unfold swift_demangle_one. destruct swift_ok; cbn [negb]; [| done].
  pose proof (swift_mangled_rx_prefix s) as Hrx.
  destruct (re_match SWIFT_MANGLED_RX s) as [m |].
  - split; [intros Hp; by rewrite Hp in Hrx |]. split.
    + by intros ->.
    + intros out -> Hblank. by rewrite strip_blank.
  - done.
Qed.

Lemma demangling_never_loses_a_name_witness :
  swift_demangle_one true blank_tool "$s4main3fooyyF" = "$s4main3fooyyF"
  ∧ swift_demangle_one true blank_tool "main" = "main".
Proof.
  destruct (demangling_never_loses_a_name true blank_tool "$s4main3fooyyF")
    as (_ & _ & _ & Hblank).
  destruct (demangling_never_loses_a_name true blank_tool "main")
    as (_ & Hplain & _).
  split.
  - apply (Hblank ("  " +:+ nl)); reflexivity.
  - apply Hplain. reflexivity.
Defined.

(** ** The ranges pattern on well-formed lines *)

Lemma rep_counts_greedy lo n :
  (lo ≤ n)%nat → rep_counts true lo n = n :: rev (seq lo (n - lo)).
Proof.
  intros Hle. unfold rep_counts.
  replace (S n - lo)%nat with (S (n - lo)) by lia.
  rewrite seq_S, rev_unit. f_equal. lia.
Qed.

(** A greedy repetition first tries the whole run. *)
Lemma exec_rep_greedy lo p prev s caps (k : cont) r :
  (lo ≤ run p s)%nat →
  k (prev_after (run p s) prev s) (str_drop (run p s) s) caps = Some r →
  exec (Rep true lo p) prev s caps k = Some r.
Proof.
  intros Hle Hk. cbn [exec]. rewrite rep_counts_greedy by done.
  cbn [first_some]. by rewrite Hk.
Qed.

Lemma str_length_app a b :
  String.length (a +:+ b) = (String.length a + String.length b)%nat.
Proof. induction a as [| c a IH]; simpl; [done | by rewrite IH]. Qed.

Lemma str_take_app a b : str_take (String.length a) (a +:+ b) = a.
Proof. induction a as [| c a IH]; simpl; [by destruct b | by rewrite IH]. Qed.

(** A token of one class followed by a character of another is a run. *)
Lemma run_token p tok next :
  all_chars p tok = true → run p next = O → run p (tok +:+ next) = String.length tok.
Proof. intros Hall Hnext. rewrite run_app by done. lia. Qed.

Lemma run_other (p q : ascii → bool) tok next :
  (∀ c, q c = true → p c = false) →
  all_chars q tok = true → tok ≠ EmptyString → run p (tok +:+ next) = O.
Proof.
  intros Hpq Hall Hne. destruct tok as [| c tok]; [done |]. simpl in *.
  apply andb_true_iff in Hall as [Hc _]. by rewrite (Hpq c Hc).
Qed.

Lemma exec_token lo p prev tok next caps (k : cont) r :
  all_chars p tok = true → (lo ≤ String.length tok)%nat → run p next = O →
  (∀ prev', k prev' next caps = Some r) →
  exec (Rep true lo p) prev (tok +:+ next) caps k = Some r.
Proof.
  intros Hall Hlo Hnext Hk. apply exec_rep_greedy; rewrite run_token by done; [done |].
  by rewrite str_drop_app.
Qed.

Lemma exec_token_group i lo p prev tok next caps (k : cont) r :
  all_chars p tok = true → (lo ≤ String.length tok)%nat → run p next = O →
  (∀ prev', k prev' next ((i, tok) :: caps) = Some r) →
  exec (Grp i (Rep true lo p)) prev (tok +:+ next) caps k = Some r.
Proof.
  intros Hall Hlo Hnext Hk.
  change (exec (Rep true lo p) prev (tok +:+ next) caps
            (λ prev' s' caps',
               k prev' s'
                 ((i, str_take (String.length (tok +:+ next) - String.length s')
                        (tok +:+ next)) :: caps'))
          = Some r).
  apply exec_token; try done. intros prev'.
  rewrite str_length_app.
  replace (String.length tok + String.length next - String.length next)%nat
    with (String.length tok) by lia.
  by rewrite str_take_app.
Qed.

Lemma hex_not_space c : is_hex c = true → is_space c = false.
Proof. destruct c as [[] [] [] [] [] [] [] []]; vm_compute; congruence. Qed.

Lemma hexx_not_space c : is_hexx c = true → is_space c = false.
Proof. destruct c as [[] [] [] [] [] [] [] []]; vm_compute; congruence. Qed.

Lemma space_not_hexx c : is_space c = true → is_hexx c = false.
Proof. destruct c as [[] [] [] [] [] [] [] []]; vm_compute; congruence. Qed.

Lemma nonempty_length s : s ≠ EmptyString → (1 ≤ String.length s)%nat.
Proof. destruct s; simpl; [done | lia]. Qed.

(** X11: a line made of optional blanks, an offset of four or more hex
    digits, blanks, a first address token, blanks and a second address
    token (the tokens made of hex digits and [x], the second one followed
    by no such character) matches [rx_dr], and the three groups are
    exactly the offset and the two tokens; the conversion of the offset
    cannot raise. *)
Theorem well_formed_ranges_line_matches ws off sp1 a sp2 b rest :
  all_chars is_space ws = true →
  all_chars is_hex off = true → (4 ≤ String.length off)%nat →
  all_chars is_space sp1 = true → sp1 ≠ EmptyString →
  all_chars is_hexx a = true → a ≠ EmptyString →
  all_chars is_space sp2 = true → sp2 ≠ EmptyString →
  all_chars is_hexx b = true → b ≠ EmptyString →
  run is_hexx rest = O →
  re_match rx_dr (ws +:+ off +:+ sp1 +:+ a +:+ sp2 +:+ b +:+ rest)
  = Some [(3%nat, b); (2%nat, a); (1%nat, off)]
  ∧ is_Some (py_int16 off).
Proof.
  intros Hws Hoff Hlen Hsp1 Hne1 Ha Hnea Hsp2 Hne2 Hb Hneb Hrest.
  assert (off ≠ EmptyString) as Hneo by (intros ->; simpl in Hlen; lia).
  split; [| by apply py_int16_hex].
  unfold re_match, rx_dr, star, plus. cbn [seqs].
  change (exec (Seq Bol ?r) None ?s [] accept) with (exec r None s [] accept).
  change (exec (Seq ?r1 ?r2) ?p ?s ?c ?k)
    with (exec r1 p s c (λ p' s' c', exec r2 p' s' c' k)).
  apply exec_token; [done | lia | by apply (run_other _ is_hex); [apply hex_not_space | |] |].
  intros ?.
  change (exec (Seq ?r1 ?r2) ?p ?s ?c ?k)
    with (exec r1 p s c (λ p' s' c', exec r2 p' s' c' k)).
  apply exec_token_group;
    [done | done | by apply (run_other _ is_space); [apply space_not_hex | |] |].
  intros ?.
  change (exec (Seq ?r1 ?r2) ?p ?s ?c ?k)
    with (exec r1 p s c (λ p' s' c', exec r2 p' s' c' k)).
  apply exec_token;
    [done | by apply nonempty_length
     | by apply (run_other _ is_hexx); [apply hexx_not_space | |] |].
  intros ?.
  change (exec (Seq ?r1 ?r2) ?p ?s ?c ?k)
    with (exec r1 p s c (λ p' s' c', exec r2 p' s' c' k)).
  apply exec_token_group;
    [done | by apply nonempty_length
     | by apply (run_other _ is_space); [apply space_not_hexx | |] |].
  intros ?.
  change (exec (Seq ?r1 ?r2) ?p ?s ?c ?k)
    with (exec r1 p s c (λ p' s' c', exec r2 p' s' c' k)).
  apply exec_token;
    [done | by apply nonempty_length
     | by apply (run_other _ is_hexx); [apply hexx_not_space | |] |].
  intros ?.
  apply exec_token_group; [done | by apply nonempty_length | done |].
  by intros ?.
Qed.

Lemma well_formed_ranges_line_matches_witness :
  re_match rx_dr ("001000  0x100  0x200" +:+ nl)
  = Some [(3%nat, "0x200"); (2%nat, "0x100"); (1%nat, "001000")].
Proof.
  refine (proj1 (well_formed_ranges_line_matches
                   "" "001000" "  " "0x100" "  " "0x200" nl _ _ _ _ _ _ _ _ _ _ _ _));
    first [reflexivity | discriminate | simpl; lia].
Defined.

(** ** Address tokens *)

Lemma is_hex_lower c : is_hex (lower_char c) = is_hex c.
Proof. destruct c as [[] [] [] [] [] [] [] []]; by vm_compute. Qed.

Lemma hex_digit_lower c : hex_digit (lower_char c) = hex_digit c.
Proof. destruct c as [[] [] [] [] [] [] [] []]; by vm_compute. Qed.

Lemma all_hex_lower h : all_chars is_hex (lower h) = all_chars is_hex h.
Proof. induction h as [| c h IH]; simpl; [done |]. by rewrite is_hex_lower, IH. Qed.

Lemma digits_lower h : ∀ acc,
  digits hex_digit 16 acc (lower h) = digits hex_digit 16 acc h.
Proof.
  induction h as [| c h IH]; intros acc; simpl; [done |].
  rewrite hex_digit_lower. destruct (hex_digit c); [apply IH | done].
Qed.

Lemma number_lower h : number hex_digit 16 (lower h) = number hex_digit 16 h.
Proof. destruct h as [| c h]; [done |]. apply (digits_lower (String c h)). Qed.

Lemma py_int16_plain h :
  all_chars is_hex h = true → py_int16 h = number hex_digit 16 h.
Proof. intros Hall. unfold py_int16. by destruct (startswith_0x_hex h Hall) as [-> ->]. Qed.

Lemma startswith_0x h : startswith "0x" ("0x" +:+ h) = true.
Proof. by destruct h. Qed.

Lemma py_int16_0x h : py_int16 ("0x" +:+ h) = number hex_digit 16 h.
Proof. unfold py_int16. by rewrite startswith_0x. Qed.

(** X12: an address token of hex digits parses to the same number with
    or without a [0x] prefix and whatever the case of its digits, and the
    conversion cannot raise: the prefix is added when it is missing and
    the token is lowered before the conversion. *)
Theorem address_token_prefix_is_optional h :
  all_chars is_hex h = true → h ≠ EmptyString →
  ∃ v, py_int16 h = Some v
       ∧ py_int16 (with_0x h) = Some v
       ∧ py_int16 (with_0x ("0x" +:+ h)) = Some v
       ∧ py_int16 (with_0x (lower h)) = Some v.
Proof.
  intros Hall Hne. destruct (py_int16_hex h Hall Hne) as [v Hv].
  exists v. split; [done |].
  rewrite py_int16_plain in Hv by done.
  assert (∀ g, all_chars is_hex g = true → with_0x g = "0x" +:+ lower g) as Hadd.
  { intros g Hg. unfold with_0x.
    destruct (startswith_0x_hex (lower g)) as [-> _]; [by rewrite all_hex_lower | done]. }
  split; [| split].
  - by rewrite Hadd, py_int16_0x, number_lower.
  - unfold with_0x.
    change (lower ("0x" +:+ h)) with ("0x" +:+ lower h).
    rewrite startswith_0x.
    by rewrite py_int16_0x, number_lower.
  - rewrite Hadd by (by rewrite all_hex_lower).
    by rewrite py_int16_0x, !number_lower.
Qed.

Lemma address_token_prefix_is_optional_witness :
  py_int16 (with_0x "1F") = Some 31 ∧ py_int16 (with_0x "0x1F") = Some 31.
Proof.
  destruct (address_token_prefix_is_optional "1F") as (v & Hv & Hplain & Hprefixed & _);
    [reflexivity | discriminate |].
  vm_compute in Hv. injection Hv as <-.
  split; [exact Hplain | exact Hprefixed].
Defined.

(** ** The script as a whole *)


(** X14: ranges with the same start and the same end keep, in the
    [functions] list, the order in which the loop emitted them: the sort
    is stable, so the names listed for one address range follow the order
    of the entries. *)
Theorem functions_keep_emission_order_on_ties
    name_map swift_ok tool image uuid arch ranges_map dies k :
  filter (λ f, same_key k f = true)
    (functions (report name_map swift_ok tool image uuid arch ranges_map dies))
  = filter (λ f, same_key k f = true)
      (concat (map (contribution name_map (index_dies dies) ranges_map swift_ok tool)
                   dies)).
Proof. unfold report. simpl. by rewrite py_sort_stable, emit_funcs. Qed.

(** X15: listing the entries in another order changes the [functions]
    list at most by a rearrangement, as long as the index of the entries
    by offset stays the same (which it does when no two entries share an
    offset). *)
Theorem functions_do_not_depend_on_entry_order
    name_map swift_ok tool image uuid arch ranges_map dies dies' :
  dies ≡ₚ dies' →
  index_dies dies = index_dies dies' →
  functions (report name_map swift_ok tool image uuid arch ranges_map dies)
  ≡ₚ functions (report name_map swift_ok tool image uuid arch ranges_map dies').
Proof.
  intros Hperm Hidx. unfold report. simpl.
  rewrite !py_sort_perm, !emit_funcs, <- Hidx, <- !flat_map_concat_map.
  by apply Permutation_flat_map.
Qed.

Lemma functions_do_not_depend_on_entry_order_witness :
  functions (report rename_obf false no_tool "img" "uuid" "arm64" ∅
               [obf_die; inlined_obf_die])
  ≡ₚ functions (report rename_obf false no_tool "img" "uuid" "arm64" ∅
                  [inlined_obf_die; obf_die]).
Proof.
  apply functions_do_not_depend_on_entry_order.
  - apply Permutation_swap.
  - vm_compute. reflexivity.
Defined.
